(** * bxgateway: compact block decompression and block dispatch

    A shallow embedding of
    [bxgateway/messages/btc/compact_block_decompression.py] and of
    [AbstractBlockchainConnectionProtocol.msg_block], with the properties
    the specification states about them.

    Python values are modelled as follows: [bytes], [bytearray] and
    [memoryview] are lists of bytes; a [dict] keyed by hex strings is a
    [gmap string]; a [deque] and a [list] are lists; an uncaught Python
    exception is the [Raise] outcome of a small error monad. *)

From Stdlib Require Import ZArith Lia.
From Stdlib.Strings Require Import Byte.
From stdpp Require Import gmap strings list sorting.

Local Open Scope Z_scope.
Local Open Scope nat_scope.

(** ** Python values and exceptions *)

Abbreviation bytes := (list byte).

#[global] Instance byte_eq_decision : EqDecision byte := Byte.byte_eq_dec.

(** The exceptions the modelled code can raise: [IndexError] (list index out
    of range), [TypeError] ([len(None)]) and [struct.error]. *)
Inductive exn : Type :=
  | IndexError
  | TypeError
  | StructError.

Inductive outcome (A : Type) : Type :=
  | Return (a : A)
  | Raise (e : exn).
Arguments Return {A} a.
Arguments Raise {A} e.

#[global] Instance outcome_ret : MRet outcome := @Return.
#[global] Instance outcome_bind : MBind outcome := fun A B f c =>
  match c with
  | Return a => f a
  | Raise e => Raise e
  end.

(** [for x in l: s = body(s, x)], stopping at the first exception. *)
Fixpoint for_each {A S : Type} (body : S → A → outcome S) (l : list A) (s : S)
  : outcome S :=
  match l with
  | [] => Return s
  | x :: l' => s' ← body s x; for_each body l' s'
  end.

(** [l[i]] on a Python list, for a non-negative [i]. *)
Definition list_index {A : Type} (l : list A) (i : nat) : outcome A :=
  match l !! i with
  | Some x => Return x
  | None => Raise IndexError
  end.

(** [b[i:j]] and [b[i:j] = v] on a bytearray, for [0 <= i <= j]. *)
Definition slice (b : bytes) (i j : nat) : bytes := take (j - i) (drop i b).
Definition slice_assign (b : bytes) (i j : nat) (v : bytes) : bytes :=
  take i b ++ v ++ drop j b.

(** [bytearray(n)] *)
Definition bytearray (n : nat) : bytes := replicate n x00.

(** ** [struct]: little-endian packing *)

Definition byte_of_Z (z : Z) : byte :=
  default x00 (Byte.of_N (Z.to_N (z mod 256))).

Fixpoint le_bytes (n : nat) (v : Z) : bytes :=
  match n with
  | O => []
  | S n' => byte_of_Z v :: le_bytes n' (v / 256)
  end.

Fixpoint le_value (b : bytes) : Z :=
  match b with
  | [] => 0%Z
  | x :: b' => (Z.of_N (Byte.to_N x) + 256 * le_value b')%Z
  end.

(** An unsigned field of [n] bytes accepts exactly [0 <= v < 256^n];
    [struct] raises [struct.error] otherwise. *)
Definition fits_unsigned (n : nat) (v : Z) : bool :=
  bool_decide (0 ≤ v < 256 ^ Z.of_nat n)%Z.

Definition pack_unsigned (n : nat) (v : Z) : outcome bytes :=
  if fits_unsigned n v then Return (le_bytes n v) else Raise StructError.

(** The [12s] field: the string cut or zero-padded to 12 bytes. *)
Definition pack_string (n : nat) (s : bytes) : bytes :=
  take n (s ++ replicate n x00).

(** [struct.pack_into(fmt, buf, off, ...)] once the values are packed: the
    buffer must have room for them. *)
Definition pack_into (buf : bytes) (off : nat) (packed : bytes) : outcome bytes :=
  if bool_decide (off + length packed ≤ length buf)
  then Return (take off buf ++ packed ++ drop (off + length packed) buf)
  else Raise StructError.

(** [struct.pack_into("<L12sL", buf, off, a, s, b)] *)
Definition pack_into_L12sL (buf : bytes) (off : nat) (a : Z) (s : bytes) (b : Z)
  : outcome bytes :=
  pa ← pack_unsigned 4 a;
  pb ← pack_unsigned 4 b;
  pack_into buf off (pa ++ pack_string 12 s ++ pb).

(** ** Wire constants and varints *)

(** Modelled from the spec: [bxgateway.btc_constants] is not among the
    sources.  The envelope is 24 bytes (magic, 12-byte command, payload
    length, 4-byte checksum), so the checksum starts at byte 20. *)
Definition BTC_HDR_COMMON_OFF : nat := 24.
Definition BTC_HEADER_MINUS_CHECKSUM : nat := 20.

(** Modelled from the spec: [BtcMessageType.BLOCK] is not among the sources;
    the command of an assembled message is the ASCII literal [block]. *)
Definition BLOCK : bytes := [x62; x6c; x6f; x63; x6b].

(** Modelled from the spec: [get_sizeof_btc_varint] of
    [bxgateway.messages.btc.btc_messages_util] is not among the sources.
    Bitcoin's CompactSize rule: below 0xFD one byte, up to 0xFFFF three, up
    to 0xFFFFFFFF five, else nine. *)
Definition get_sizeof_btc_varint (val : Z) : nat :=
  if (val <? 253)%Z then 1
  else if (val <=? 65535)%Z then 3
  else if (val <=? 4294967295)%Z then 5
  else 9.

(** Modelled from the spec: [pack_int_to_btc_varint] of
    [bxgateway.messages.btc.btc_messages_util] is not among the sources.
    It writes the value little-endian after the prefix byte 0xFD, 0xFE or
    0xFF (no prefix below 0xFD) and fails when the buffer is too small. *)
Definition btc_varint (val : Z) : bytes :=
  if (val <? 253)%Z then le_bytes 1 val
  else if (val <=? 65535)%Z then xfd :: le_bytes 2 val
  else if (val <=? 4294967295)%Z then xfe :: le_bytes 4 val
  else xff :: le_bytes 8 val.

Definition pack_int_to_btc_varint (val : Z) (buf : bytes) (off : nat)
  : outcome bytes :=
  pack_into buf off (btc_varint val).

(** ** Messages and the transaction service *)

(** The accessors of [CompactBlockBtcMessage] the decompression reads.
    Short ids are hex strings; a prefilled entry is its absolute index (a
    decoded varint, hence unsigned) with the transaction's bytes. *)
Record CompactBlockBtcMessage : Type := {
  block_header : bytes;
  short_nonce_buf : bytes;
  short_ids : list string;
  prefilled_txns : list (nat * bytes)
}.

(** [BlockBtcMessage(buf=...)] *)
Record BlockBtcMessage : Type := { buf : bytes }.

(** The two methods of [TransactionService] the decompression calls. *)
Record TransactionService : Type := {
  get_all_transaction_hashes : list string;
  get_transaction_by_hash : string → bytes
}.

Record CompactBlockDecompressionResult : Type := {
  success : bool;
  block_btc_message : option BlockBtcMessage;
  block_transactions : option (list (option bytes));
  missing_transactions_indices : option (list nat)
}.

Record CompactBlockRecoveryResult : Type := {
  recovery_success : bool;
  recovery_block_btc_message : option BlockBtcMessage
}.

(** The envelope fields of an assembled block message. *)
Definition envelope_magic (m : BlockBtcMessage) : Z := le_value (slice (buf m) 0 4).
Definition envelope_command (m : BlockBtcMessage) : bytes := slice (buf m) 4 16.
Definition envelope_payload_len (m : BlockBtcMessage) : Z := le_value (slice (buf m) 16 20).
Definition envelope_checksum (m : BlockBtcMessage) : bytes := slice (buf m) 20 24.
Definition payload (m : BlockBtcMessage) : bytes := drop 24 (buf m).

(** ** The decompression engine *)

Section Decompression.

(** The library functions the module imports: [hashlib.sha256] (as a
    function of everything fed to the hash object), [csiphash.siphash24],
    and bxcommon's [convert.hex_to_bytes] and [convert.bytes_to_hex]. *)
Variable sha256 : bytes → bytes.
Variable siphash24 : bytes → bytes → bytes.
Variable hex_to_bytes : string → bytes.
Variable bytes_to_hex : bytes → string.

(** A [hashlib] hash object is the data it has been fed so far. *)
Definition hashlib_sha256 : bytes := [].
Definition sha256_update (h data : bytes) : bytes := h ++ data.
Definition sha256_digest (h : bytes) : bytes := sha256 h.

(** Modelled from the spec: [crypto.bitcoin_hash] (package bxcommon) is not
    among the sources; the checksum of a message is taken from the double
    SHA-256 of its payload. *)
Definition bitcoin_hash (content : bytes) : bytes := sha256 (sha256 content).

Definition _compute_short_id (key tx_hash_str : bytes) : bytes :=
  slice (siphash24 key tx_hash_str) 0 6.

Fixpoint _get_prefilled_tx_by_index (prefilled_txs : list (nat * bytes)) (index : nat)
  : option bytes :=
  match prefilled_txs with
  | [] => None
  | prefilled_tx :: rest =>
      if bool_decide (prefilled_tx.1 = index) then Some prefilled_tx.2
      else _get_prefilled_tx_by_index rest index
  end.

(** Lines 47-51: the SipHash key of a compact block. *)
Definition siphash_key (msg : CompactBlockBtcMessage) : bytes :=
  let sha256_hash := hashlib_sha256 in
  let sha256_hash := sha256_update sha256_hash (block_header msg) in
  let sha256_hash := sha256_update sha256_hash (short_nonce_buf msg) in
  let hex_digest := sha256_digest sha256_hash in
  slice hex_digest 0 16.

(** Lines 57-63: one round of the loop over the cached hashes. *)
Definition short_id_round (key : bytes) (short_ids : list string)
    (transaction_service : TransactionService)
    (short_id_to_tx_hash : gmap string bytes) (tx_hash_str : string)
  : gmap string bytes :=
  let tx_hash_bytes := rev (hex_to_bytes tx_hash_str) in
  let tx_short_id := _compute_short_id key tx_hash_bytes in
  let tx_short_id_str := bytes_to_hex tx_short_id in
  if bool_decide (tx_short_id_str ∈ short_ids)
  then <[tx_short_id_str := get_transaction_by_hash transaction_service tx_hash_str]>
         short_id_to_tx_hash
  else short_id_to_tx_hash.

(** Lines 55-63: the dict from short id to cached transaction. *)
Definition short_id_mapping (key : bytes) (short_ids : list string)
    (transaction_service : TransactionService) : gmap string bytes :=
  foldl (short_id_round key short_ids transaction_service) ∅
    (get_all_transaction_hashes transaction_service).

(** The local variables the slot loop updates. *)
Record slot_state : Type := {
  st_block_msg_parts : list bytes;
  st_block_transactions : list (option bytes);
  st_missing_transactions_indices : list nat;
  st_size : nat;
  st_short_tx_index : nat
}.

(** Lines 86-103: the body of [for index in range(total_txs_count)]. *)
Definition slot_round (prefilled_txs : list (nat * bytes)) (short_ids : list string)
    (short_id_to_tx_hash : gmap string bytes) (st : slot_state) (index : nat)
  : outcome slot_state :=
  match _get_prefilled_tx_by_index prefilled_txs index with
  | None =>
      short_id ← list_index short_ids (st_short_tx_index st);
      match short_id_to_tx_hash !! short_id with
      | Some short_tx =>
          Return {| st_block_msg_parts := st_block_msg_parts st ++ [short_tx];
                    st_block_transactions := st_block_transactions st ++ [Some short_tx];
                    st_missing_transactions_indices := st_missing_transactions_indices st;
                    st_size := st_size st + length short_tx;
                    st_short_tx_index := st_short_tx_index st + 1 |}
      | None =>
          Return {| st_block_msg_parts := st_block_msg_parts st;
                    st_block_transactions := st_block_transactions st ++ [None];
                    st_missing_transactions_indices :=
                      st_missing_transactions_indices st ++ [index];
                    st_size := st_size st;
                    st_short_tx_index := st_short_tx_index st + 1 |}
      end
  | Some prefilled_tx =>
      Return {| st_block_msg_parts := st_block_msg_parts st ++ [prefilled_tx];
                st_block_transactions := st_block_transactions st ++ [Some prefilled_tx];
                st_missing_transactions_indices := st_missing_transactions_indices st;
                st_size := st_size st + length prefilled_tx;
                st_short_tx_index := st_short_tx_index st |}
  end.

(** Lines 113-118 and 172-177: the parts copied one after the other into
    the message buffer. *)
Definition copy_round (st : bytes * nat) (blob : bytes) : bytes * nat :=
  let next_off := st.2 + length blob in
  (slice_assign st.1 st.2 next_off blob, next_off).

(** Lines 108-123 and 167-182, the same statements in both functions: the
    envelope is put in front of the parts, the parts are copied into one
    buffer and the checksum is written into the envelope. *)
Definition build_block_message (magic : Z) (block_msg_parts : list bytes) (size : nat)
  : outcome BlockBtcMessage :=
  let msg_header := bytearray BTC_HDR_COMMON_OFF in
  msg_header ← pack_into_L12sL msg_header 0 magic BLOCK (Z.of_nat size);
  let block_msg_parts := msg_header :: block_msg_parts in
  let size := size + BTC_HDR_COMMON_OFF in
  let block_msg_bytes := bytearray size in
  let block_msg_bytes := (foldl copy_round (block_msg_bytes, 0) block_msg_parts).1 in
  let checksum := bitcoin_hash (slice block_msg_bytes BTC_HDR_COMMON_OFF size) in
  let block_msg_bytes :=
    slice_assign block_msg_bytes BTC_HEADER_MINUS_CHECKSUM BTC_HDR_COMMON_OFF
      (slice checksum 0 4) in
  Return {| buf := block_msg_bytes |}.

Definition decompress_compact_block (magic : Z) (msg : CompactBlockBtcMessage)
    (transaction_service : TransactionService)
  : outcome CompactBlockDecompressionResult :=
  let key := siphash_key msg in
  let short_ids := short_ids msg in
  let short_id_to_tx_hash := short_id_mapping key short_ids transaction_service in
  let prefilled_txs := prefilled_txns msg in
  let total_txs_count := length prefilled_txs + length short_ids in
  let size := 0 in
  let block_msg_parts := [block_header msg] in
  let size := size + length (block_header msg) in
  let tx_count_size := get_sizeof_btc_varint (Z.of_nat total_txs_count) in
  let tx_count_buf := bytearray tx_count_size in
  tx_count_buf ← pack_int_to_btc_varint (Z.of_nat total_txs_count) tx_count_buf 0;
  let block_msg_parts := block_msg_parts ++ [tx_count_buf] in
  let size := size + tx_count_size in
  st ← for_each (slot_round prefilled_txs short_ids short_id_to_tx_hash)
         (seq 0 total_txs_count)
         {| st_block_msg_parts := block_msg_parts;
            st_block_transactions := [];
            st_missing_transactions_indices := [];
            st_size := size;
            st_short_tx_index := 0 |};
  if bool_decide (0 < length (st_missing_transactions_indices st))
  then Return {| success := false;
                 block_btc_message := None;
                 block_transactions := Some (st_block_transactions st);
                 missing_transactions_indices :=
                   Some (st_missing_transactions_indices st) |}
  else
    block_msg ← build_block_message magic (st_block_msg_parts st) (st_size st);
    Return {| success := true;
              block_btc_message := Some block_msg;
              block_transactions := None;
              missing_transactions_indices := None |}.

(** Lines 146-148: [block_transactions[missing_index] = recovered[i]], on
    the caller's list.  The pair is the list as the loop leaves it (also
    when it stops on an exception) and the loop's outcome. *)
Fixpoint write_recovered (block_transactions : list (option bytes))
    (missing_indices : list nat) (recovered_transactions : list bytes) (i : nat)
    (n : nat) : list (option bytes) * outcome unit :=
  match n with
  | O => (block_transactions, Return ())
  | S n' =>
      match list_index missing_indices i with
      | Raise e => (block_transactions, Raise e)
      | Return missing_index =>
          match list_index recovered_transactions i with
          | Raise e => (block_transactions, Raise e)
          | Return tx =>
              if bool_decide (missing_index < length block_transactions)
              then write_recovered (<[missing_index := Some tx]> block_transactions)
                     missing_indices recovered_transactions (i + 1) n'
              else (block_transactions, Raise IndexError)
          end
      end
  end.

(** Lines 163-165: [len(transaction)] raises [TypeError] on [None]. *)
Definition transaction_round (st : list bytes * nat) (transaction : option bytes)
  : outcome (list bytes * nat) :=
  match transaction with
  | Some tx => Return (st.1 ++ [tx], st.2 + length tx)
  | None => Raise TypeError
  end.

(** The function returns the caller's [block_transactions] list as it
    leaves it, next to its result. *)
Definition decompress_recovered_compact_block (magic : Z) (msg : CompactBlockBtcMessage)
    (block_transactions : list (option bytes)) (missing_indices : list nat)
    (recovered_transactions : list bytes)
  : list (option bytes) * outcome CompactBlockRecoveryResult :=
  if bool_decide (length missing_indices ≠ length recovered_transactions)
  then (block_transactions,
        Return {| recovery_success := false; recovery_block_btc_message := None |})
  else
    let '(block_transactions, written) :=
      write_recovered block_transactions missing_indices recovered_transactions 0
        (length missing_indices) in
    (block_transactions,
     _ ← written;
     let size := 0 in
     let total_txs_count := length block_transactions in
     let block_msg_parts := [block_header msg] in
     let size := size + length (block_header msg) in
     let tx_count_size := get_sizeof_btc_varint (Z.of_nat total_txs_count) in
     let tx_count_buf := bytearray tx_count_size in
     tx_count_buf ← pack_int_to_btc_varint (Z.of_nat total_txs_count) tx_count_buf 0;
     let block_msg_parts := block_msg_parts ++ [tx_count_buf] in
     let size := size + tx_count_size in
     st ← for_each transaction_round block_transactions (block_msg_parts, size);
     block_msg ← build_block_message magic st.1 st.2;
     Return {| recovery_success := true;
               recovery_block_btc_message := Some block_msg |}).

End Decompression.

(** ** Views used by the statements *)

(** The 20 bytes [struct.pack_into] writes at the start of the envelope. *)
Definition envelope_prefix (magic : Z) (size : nat) : bytes :=
  le_bytes 4 magic ++ pack_string 12 BLOCK ++ le_bytes 4 (Z.of_nat size).

(** The slots the loop fills for the indices [indices] when it starts with
    the short-id cursor at [cursor]. *)
Fixpoint resolve_slots (prefilled_txs : list (nat * bytes)) (short_ids : list string)
    (short_id_to_tx_hash : gmap string bytes) (cursor : nat) (indices : list nat)
  : list (option bytes) :=
  match indices with
  | [] => []
  | index :: rest =>
      match _get_prefilled_tx_by_index prefilled_txs index with
      | Some tx =>
          Some tx :: resolve_slots prefilled_txs short_ids short_id_to_tx_hash cursor rest
      | None =>
          (short_ids !! cursor ≫= (short_id_to_tx_hash !!.))
          :: resolve_slots prefilled_txs short_ids short_id_to_tx_hash (cursor + 1) rest
      end
  end.

(** How many of [indices] have no prefilled transaction. *)
Fixpoint count_short (prefilled_txs : list (nat * bytes)) (indices : list nat) : nat :=
  match indices with
  | [] => 0
  | index :: rest =>
      match _get_prefilled_tx_by_index prefilled_txs index with
      | Some _ => count_short prefilled_txs rest
      | None => S (count_short prefilled_txs rest)
      end
  end.

(** The indices among [indices] whose slot is [None]. *)
Fixpoint missing_in (indices : list nat) (slots : list (option bytes)) : list nat :=
  match indices, slots with
  | index :: indices', None :: slots' => index :: missing_in indices' slots'
  | _ :: indices', Some _ :: slots' => missing_in indices' slots'
  | _, _ => []
  end.

(** The transactions of the filled slots, in order. *)
Definition filled (slots : list (option bytes)) : list bytes := omap id slots.

(** The absolute indices of the prefilled transactions, and the number of
    slots of the block. *)
Definition prefilled_indices (msg : CompactBlockBtcMessage) : list nat :=
  (prefilled_txns msg).*1.

Definition total_txs_count (msg : CompactBlockBtcMessage) : nat :=
  length (prefilled_txns msg) + length (short_ids msg).

(** No prefilled index occurs twice and each is below the slot count. *)
Definition well_formed_prefilled (msg : CompactBlockBtcMessage) : Prop :=
  NoDup (prefilled_indices msg)
  ∧ Forall (λ i, i < total_txs_count msg) (prefilled_indices msg).

#[global] Instance well_formed_prefilled_dec msg : Decision (well_formed_prefilled msg).
Proof. unfold well_formed_prefilled. apply _. Defined.

Section Views.

Variable sha256 : bytes → bytes.
Variable siphash24 : bytes → bytes → bytes.
Variable hex_to_bytes : string → bytes.
Variable bytes_to_hex : bytes → string.

(** The dict the decompression of [msg] builds from the cache. *)
Definition short_id_to_tx_hash_of (msg : CompactBlockBtcMessage)
    (transaction_service : TransactionService) : gmap string bytes :=
  short_id_mapping siphash24 hex_to_bytes bytes_to_hex
    (siphash_key sha256 msg) (short_ids msg) transaction_service.

(** The slots the decompression of [msg] resolves, one per index. *)
Definition slot_list (msg : CompactBlockBtcMessage)
    (transaction_service : TransactionService) : list (option bytes) :=
  resolve_slots (prefilled_txns msg) (short_ids msg)
    (short_id_to_tx_hash_of msg transaction_service) 0 (seq 0 (total_txs_count msg)).

End Views.

(** The payload of a block message: header, varint count, transactions. *)
Definition block_payload (msg : CompactBlockBtcMessage) (txs : list bytes) : bytes :=
  block_header msg ++ btc_varint (Z.of_nat (length txs)) ++ concat txs.

(** The positions of the [None] slots, in ascending order. *)
Definition none_positions (slots : list (option bytes)) : list nat :=
  filter (λ i, slots !! i = Some None) (seq 0 (length slots)).

Definition complete_result (block_msg : BlockBtcMessage) : CompactBlockDecompressionResult :=
  {| success := true;
     block_btc_message := Some block_msg;
     block_transactions := None;
     missing_transactions_indices := None |}.

Definition partial_result (slots : list (option bytes)) (missing : list nat)
  : CompactBlockDecompressionResult :=
  {| success := false;
     block_btc_message := None;
     block_transactions := Some slots;
     missing_transactions_indices := Some missing |}.

(** ** Stand-ins for the library functions and sample data

    The statements below hold for any [sha256], [siphash24], [hex_to_bytes]
    and [bytes_to_hex].  To run the model on concrete messages, this module
    fixes simple stand-ins for them (not the real hash functions) and the
    messages of the specification's end-to-end scenarios. *)
Module Sample.

Definition sha256 (data : bytes) : bytes := take 32 (data ++ replicate 32 x00).
Definition siphash24 (key data : bytes) : bytes := take 8 (data ++ key ++ replicate 8 x00).
Definition hex_to_bytes (s : string) : bytes := String.list_byte_of_string s.
Definition bytes_to_hex (b : bytes) : string := String.string_of_list_byte b.

Definition magic : Z := 3652501241.

Definition CB : bytes := [x01; x00; x00; x00; xff].
Definition tx1 : bytes := [x01; x11; x11].
Definition tx2 : bytes := [x02; x22; x22; x22].
Definition tx3 : bytes := [x03; x33].

(** With the stand-ins, the short id of the hash [tx1aaa] is [aaa1xt]. *)
Definition contents (tx_hash_str : string) : bytes :=
  if bool_decide (tx_hash_str = "tx1aaa") then tx1
  else if bool_decide (tx_hash_str = "tx2aaa") then tx2
  else if bool_decide (tx_hash_str = "tx3aaa") then tx3
  else if bool_decide (tx_hash_str = "Xtx1aaa") then tx3
  else [].

Definition cache (hashes : list string) : TransactionService :=
  {| get_all_transaction_hashes := hashes; get_transaction_by_hash := contents |}.

Definition compact (short_ids : list string) (prefilled : list (nat * bytes))
  : CompactBlockBtcMessage :=
  {| block_header := replicate 80 x07;
     short_nonce_buf := replicate 8 x09;
     short_ids := short_ids;
     prefilled_txns := prefilled |}.

(** Scenarios 2 and 3: one prefilled coinbase and two short ids. *)
Definition msg : CompactBlockBtcMessage := compact ["aaa1xt"; "aaa2xt"] [(0, CB)].
Definition full_cache : TransactionService := cache ["tx1aaa"; "tx2aaa"].
Definition cache_without_tx2 : TransactionService := cache ["tx1aaa"].

(** Two cached hashes with the short id [aaa1xt]. *)
Definition colliding_cache : TransactionService := cache ["tx1aaa"; "Xtx1aaa"].

(** A prefilled index beyond the slot count, and a repeated one. *)
Definition msg_out_of_range : CompactBlockBtcMessage := compact [] [(1, CB)].
Definition msg_duplicate : CompactBlockBtcMessage := compact ["aaa1xt"] [(0, CB); (0, tx3)].

Definition decompress :=
  decompress_compact_block sha256 siphash24 hex_to_bytes bytes_to_hex.
Definition recover := decompress_recovered_compact_block sha256.

End Sample.

(** The writes of the recovery loop over the pairs (index, transaction):
    [write_pairs] stops at the first index out of range, as the loop does;
    [fill_slots] is the list after all the writes. *)
Fixpoint write_pairs (block_transactions : list (option bytes))
    (pairs : list (nat * bytes)) : list (option bytes) * outcome unit :=
  match pairs with
  | [] => (block_transactions, Return ())
  | (missing_index, tx) :: rest =>
      if bool_decide (missing_index < length block_transactions)
      then write_pairs (<[missing_index := Some tx]> block_transactions) rest
      else (block_transactions, Raise IndexError)
  end.

Definition fill_slots (block_transactions : list (option bytes))
    (pairs : list (nat * bytes)) : list (option bytes) :=
  foldl (λ slots pair, <[pair.1 := Some pair.2]> slots) block_transactions pairs.

(** The bytes of an assembled block message with the transactions [txs]:
    envelope prefix, checksum slice, payload. *)
Definition block_message_bytes (sha256 : bytes → bytes) (magic : Z)
    (msg : CompactBlockBtcMessage) (txs : list bytes) : bytes :=
  envelope_prefix magic (length (block_payload msg txs))
  ++ slice (bitcoin_hash sha256 (block_payload msg txs)) 0 4
  ++ block_payload msg txs.

(** The short-id mapper in the specification's words: the key is the first
    16 bytes of the SHA-256 of header and nonce; the short id of a cached
    hash is the first 6 bytes of SipHash-2-4, under that key, of the
    byte-reversed raw hash. *)
Definition spec_sip_key (sha256 : bytes → bytes) (msg : CompactBlockBtcMessage) : bytes :=
  take 16 (sha256 (block_header msg ++ short_nonce_buf msg)).

Definition spec_short_id (siphash24 : bytes → bytes → bytes)
    (hex_to_bytes : string → bytes) (key : bytes) (tx_hash_hex : string) : bytes :=
  take 6 (siphash24 key (rev (hex_to_bytes tx_hash_hex))).

(** ** Block dispatch: [AbstractBlockchainConnectionProtocol.msg_block] *)

(** The accessors of a full block message that [msg_block] reads. *)
Record FullBlockMessage : Type := {
  block_hash : bytes;
  rawbytes : bytes
}.

Inductive BlockStatEventType : Type :=
  | BLOCK_RECEIVED_FROM_BLOCKCHAIN_NODE
  | BLOCK_RECEIVED_FROM_BLOCKCHAIN_NODE_IGNORE_SEEN
  | BLOCK_COMPRESSED.

(** The calls [msg_block] makes on its collaborators: the statistics
    service, the message converter, the neutrality service and the block
    recovery service. *)
Inductive call : Type :=
  | add_block_event_by_block_hash (h : bytes) (event : BlockStatEventType)
  | block_to_bx_block (h : bytes)
  | propagate_block_to_network (h : bytes)
  | cancel_recovery_for_block (h : bytes).

#[global] Instance BlockStatEventType_eq_dec : EqDecision BlockStatEventType.
Proof. solve_decision. Defined.
#[global] Instance call_eq_dec : EqDecision call.
Proof. solve_decision. Defined.

(** Modelled from the spec: the class of [node.blocks_seen] is not among the
    sources.  The seen-blocks set is a bounded FIFO set: [contents] lists
    the hashes it holds, oldest first; [add] of a hash it holds changes
    nothing (duplicates are never retained); on overflow the oldest
    inserted hashes are evicted down to the capacity. *)
Record SeenBlocks : Type := {
  capacity : nat;
  contents : list bytes
}.

Definition add (item : bytes) (s : SeenBlocks) : SeenBlocks :=
  if bool_decide (item ∈ contents s) then s
  else
    let inserted := contents s ++ [item] in
    {| capacity := capacity s;
       contents := drop (length inserted - capacity s) inserted |}.

(** The part of the node [msg_block] touches: the seen-blocks set, and the
    calls made so far on the collaborators. *)
Record Node : Type := {
  blocks_seen : SeenBlocks;
  calls : list call
}.

Definition called (c : call) (node : Node) : Node :=
  {| blocks_seen := blocks_seen node; calls := calls node ++ [c] |}.

Definition msg_block (msg : FullBlockMessage) (node : Node) : Node :=
  let block_hash := block_hash msg in
  let node :=
    called (add_block_event_by_block_hash block_hash BLOCK_RECEIVED_FROM_BLOCKCHAIN_NODE)
      node in
  if bool_decide (block_hash ∈ contents (blocks_seen node))
  then
    called (add_block_event_by_block_hash block_hash
              BLOCK_RECEIVED_FROM_BLOCKCHAIN_NODE_IGNORE_SEEN) node
  else
    let node := called (block_to_bx_block block_hash) node in
    let node := called (add_block_event_by_block_hash block_hash BLOCK_COMPRESSED) node in
    let node := called (propagate_block_to_network block_hash) node in
    let node := called (cancel_recovery_for_block block_hash) node in
    {| blocks_seen := add block_hash (blocks_seen node); calls := calls node |}.

(** The node after a sequence of inbound full blocks. *)
Definition msg_blocks (msgs : list FullBlockMessage) (node : Node) : Node :=
  foldl (λ node msg, msg_block msg node) node msgs.

(** One block pushed twice into a node that has seen nothing. *)
Module DispatchSample.

Definition h : bytes := [x0a; x0b; x0c].
Definition block : FullBlockMessage := {| block_hash := h; rawbytes := [x01; x02] |}.
Definition fresh_node : Node :=
  {| blocks_seen := {| capacity := 2; contents := [] |}; calls := [] |}.

End DispatchSample.

(** ** Transaction dispatch: [AbstractBlockchainConnectionProtocol.msg_tx] *)

Section TxDispatch.

Context {tx_message bx_tx_message tx_hash : Type} `{Countable tx_hash}.

(** [connection.message_converter.tx_to_bx_txs(msg, network_num)], for the
    connection's network number. *)
Variable tx_to_bx_txs : tx_message → list (bx_tx_message * tx_hash * bytes).

(** The part of the node [msg_tx] touches: the transaction service's
    [hash_to_contents] dict and the messages handed to [node.broadcast]. *)
Record TxNode : Type := {
  hash_to_contents : gmap tx_hash bytes;
  broadcast_messages : list bx_tx_message
}.

(** The body of [for (blx_txmsg, tx_hash, tx_bytes) in blx_txmsgs]. *)
Definition msg_tx_round (node : TxNode) (converted : bx_tx_message * tx_hash * bytes)
  : TxNode :=
  let '(blx_txmsg, tx_hash, tx_bytes) := converted in
  let node := {| hash_to_contents := hash_to_contents node;
                 broadcast_messages := broadcast_messages node ++ [blx_txmsg] |} in
  {| hash_to_contents := <[tx_hash := tx_bytes]> (hash_to_contents node);
     broadcast_messages := broadcast_messages node |}.

Definition msg_tx (msg : tx_message) (node : TxNode) : TxNode :=
  let blx_txmsgs := tx_to_bx_txs msg in
  foldl msg_tx_round node blx_txmsgs.

End TxDispatch.

(** ** [GatewayNode.send_bytes_to_node] *)

(** The part of the gateway node [send_bytes_to_node] touches: the
    connection to the blockchain node ([None] until there is one), as the
    messages enqueued on it, and the queue of messages kept for it. *)
Record GatewayNode : Type := {
  node_conn : option (list bytes);
  node_msg_queue : list bytes
}.

Definition send_bytes_to_node (msg : bytes) (node : GatewayNode) : GatewayNode :=
  match node_conn node with
  | Some enqueued =>
      {| node_conn := Some (enqueued ++ [msg]); node_msg_queue := node_msg_queue node |}
  | None =>
      {| node_conn := None; node_msg_queue := node_msg_queue node ++ [msg] |}
  end.

(** ** [_GatewayBdnPerformanceStatsService]: the counters of an interval *)

Record GatewayBdnPerformanceStatInterval : Type := {
  new_blocks_received_from_blockchain_node : nat;
  new_blocks_received_from_bdn : nat;
  new_tx_received_from_blockchain_node : nat;
  new_tx_received_from_bdn : nat
}.

(** The counters as [GatewayBdnPerformanceStatInterval.__init__] sets them. *)
Definition new_interval_data : GatewayBdnPerformanceStatInterval :=
  {| new_blocks_received_from_blockchain_node := 0;
     new_blocks_received_from_bdn := 0;
     new_tx_received_from_blockchain_node := 0;
     new_tx_received_from_bdn := 0 |}.

Definition log_block_from_blockchain_node (d : GatewayBdnPerformanceStatInterval)
  : GatewayBdnPerformanceStatInterval :=
  {| new_blocks_received_from_blockchain_node :=
       new_blocks_received_from_blockchain_node d + 1;
     new_blocks_received_from_bdn := new_blocks_received_from_bdn d;
     new_tx_received_from_blockchain_node := new_tx_received_from_blockchain_node d;
     new_tx_received_from_bdn := new_tx_received_from_bdn d |}.

Definition log_block_from_bdn (d : GatewayBdnPerformanceStatInterval)
  : GatewayBdnPerformanceStatInterval :=
  {| new_blocks_received_from_blockchain_node :=
       new_blocks_received_from_blockchain_node d;
     new_blocks_received_from_bdn := new_blocks_received_from_bdn d + 1;
     new_tx_received_from_blockchain_node := new_tx_received_from_blockchain_node d;
     new_tx_received_from_bdn := new_tx_received_from_bdn d |}.

Definition log_tx_from_blockchain_node (d : GatewayBdnPerformanceStatInterval)
  : GatewayBdnPerformanceStatInterval :=
  {| new_blocks_received_from_blockchain_node :=
       new_blocks_received_from_blockchain_node d;
     new_blocks_received_from_bdn := new_blocks_received_from_bdn d;
     new_tx_received_from_blockchain_node := new_tx_received_from_blockchain_node d + 1;
     new_tx_received_from_bdn := new_tx_received_from_bdn d |}.

Definition log_tx_from_bdn (d : GatewayBdnPerformanceStatInterval)
  : GatewayBdnPerformanceStatInterval :=
  {| new_blocks_received_from_blockchain_node :=
       new_blocks_received_from_blockchain_node d;
     new_blocks_received_from_bdn := new_blocks_received_from_bdn d;
     new_tx_received_from_blockchain_node := new_tx_received_from_blockchain_node d;
     new_tx_received_from_bdn := new_tx_received_from_bdn d + 1 |}.

(** The four logging methods, as the calls a run makes. *)
Inductive stats_call : Type :=
  | LogBlockFromBlockchainNode
  | LogBlockFromBdn
  | LogTxFromBlockchainNode
  | LogTxFromBdn.

#[global] Instance stats_call_eq_dec : EqDecision stats_call.
Proof. solve_decision. Defined.

Definition log_call (d : GatewayBdnPerformanceStatInterval) (c : stats_call)
  : GatewayBdnPerformanceStatInterval :=
  match c with
  | LogBlockFromBlockchainNode => log_block_from_blockchain_node d
  | LogBlockFromBdn => log_block_from_bdn d
  | LogTxFromBlockchainNode => log_tx_from_blockchain_node d
  | LogTxFromBdn => log_tx_from_bdn d
  end.

(** How many calls of a list satisfy a test. *)
Definition count_calls {A : Type} (test : A → bool) (l : list A) : nat :=
  length (List.filter test l).

Definition is_received (c : call) : bool :=
  match c with
  | add_block_event_by_block_hash _ BLOCK_RECEIVED_FROM_BLOCKCHAIN_NODE => true
  | _ => false
  end.
Definition is_ignore_seen (c : call) : bool :=
  match c with
  | add_block_event_by_block_hash _ BLOCK_RECEIVED_FROM_BLOCKCHAIN_NODE_IGNORE_SEEN => true
  | _ => false
  end.
Definition is_compressed (c : call) : bool :=
  match c with
  | add_block_event_by_block_hash _ BLOCK_COMPRESSED => true
  | _ => false
  end.
Definition is_conversion (c : call) : bool :=
  match c with block_to_bx_block _ => true | _ => false end.
Definition is_propagation (c : call) : bool :=
  match c with propagate_block_to_network _ => true | _ => false end.
Definition is_cancellation (c : call) : bool :=
  match c with cancel_recovery_for_block _ => true | _ => false end.

(** * Properties *)

(** ** Little-endian fields *)

Lemma byte_of_Z_value (z : Z) : Z.of_N (Byte.to_N (byte_of_Z z)) = (z mod 256)%Z.
Proof.
  unfold byte_of_Z.
  assert (0 ≤ z mod 256 < 256)%Z as Hr by (apply Z.mod_pos_bound; lia).
  destruct (Byte.of_N (Z.to_N (z mod 256))) as [b|] eqn:Hb; simpl.
  - apply Byte.to_of_N in Hb. rewrite Hb. lia.
  - apply Byte.of_N_None_iff in Hb. lia.
Qed.

Lemma length_le_bytes (n : nat) (v : Z) : length (le_bytes n v) = n.
Proof. revert v; induction n as [|n IH]; intros v; simpl; [done|by rewrite IH]. Qed.

Lemma le_value_le_bytes (n : nat) (v : Z) :
  le_value (le_bytes n v) = (v mod 256 ^ Z.of_nat n)%Z.
Proof.
  revert v; induction n as [|n IH]; intros v.
  - simpl. by rewrite Z.mod_1_r.
  - cbn [le_bytes le_value]. rewrite byte_of_Z_value, IH.
    rewrite Nat2Z.inj_succ, Z.pow_succ_r by lia.
    rewrite Z.rem_mul_r by lia. done.
Qed.

Lemma le_value_le_bytes_fits (n : nat) (v : Z) :
  fits_unsigned n v = true → le_value (le_bytes n v) = v.
Proof.
  unfold fits_unsigned. intros Hv%bool_decide_eq_true.
  rewrite le_value_le_bytes. by apply Z.mod_small.
Qed.

Lemma length_pack_string (n : nat) (s : bytes) : length (pack_string n s) = n.
Proof.
  unfold pack_string. rewrite length_take, length_app, length_replicate. lia.
Qed.

Lemma length_btc_varint (val : Z) : length (btc_varint val) = get_sizeof_btc_varint val.
Proof.
  unfold btc_varint, get_sizeof_btc_varint.
  repeat case_match; simpl; by rewrite ?length_le_bytes.
Qed.

(** Packing a varint into a fresh buffer of its own size never fails and
    gives the encoding itself. *)
Lemma pack_int_to_btc_varint_fresh (val : Z) :
  pack_int_to_btc_varint val (bytearray (get_sizeof_btc_varint val)) 0
  = Return (btc_varint val).
Proof.
  unfold pack_int_to_btc_varint, pack_into, bytearray.
  rewrite length_replicate, length_btc_varint.
  rewrite bool_decide_eq_true_2 by lia. f_equal. simpl.
  rewrite drop_ge by (rewrite length_replicate; lia).
  by rewrite app_nil_r.
Qed.

(** ** Assembling the message buffer *)

Lemma copy_rounds (parts : list bytes) (b : bytes) (off : nat) :
  off + length (concat parts) ≤ length b →
  (foldl copy_round (b, off) parts).1
  = take off b ++ concat parts ++ drop (off + length (concat parts)) b.
Proof.
  revert b off; induction parts as [|p parts IH]; intros b off Hlen; simpl in *.
  - by rewrite Nat.add_0_r, take_drop.
  - rewrite length_app in Hlen.
    unfold copy_round at 2; simpl. unfold slice_assign. rewrite IH.
    + rewrite (assoc_L (++) (take off b) p).
      rewrite take_app_length' by (rewrite length_app, length_take; lia).
      rewrite drop_app_ge by (rewrite length_app, length_take; lia).
      rewrite drop_drop, !length_app, length_take, <- !(assoc_L (++)).
      do 3 f_equal. f_equal. lia.
    + rewrite !length_app, length_take, length_drop. lia.
Qed.

Lemma copy_rounds_exact (parts : list bytes) (n : nat) :
  n = length (concat parts) →
  (foldl copy_round (bytearray n, 0) parts).1 = concat parts.
Proof.
  intros ->. rewrite copy_rounds by (unfold bytearray; rewrite length_replicate; lia).
  simpl. rewrite drop_ge by (unfold bytearray; rewrite length_replicate; lia).
  by rewrite app_nil_r.
Qed.

Lemma length_envelope_prefix (magic : Z) (size : nat) :
  length (envelope_prefix magic size) = 20.
Proof.
  unfold envelope_prefix. by rewrite !length_app, !length_le_bytes, length_pack_string.
Qed.

Lemma bind_Return {A B : Type} (a : A) (f : A → outcome B) : (Return a ≫= f) = f a.
Proof. reflexivity. Qed.

Lemma bind_Raise {A B : Type} (e : exn) (f : A → outcome B) : (Raise e ≫= f) = Raise e.
Proof. reflexivity. Qed.

Lemma length_bytearray (n : nat) : length (bytearray n) = n.
Proof. apply length_replicate. Qed.

Lemma pack_into_L12sL_header (magic : Z) (size : nat) :
  fits_unsigned 4 magic = true →
  fits_unsigned 4 (Z.of_nat size) = true →
  pack_into_L12sL (bytearray BTC_HDR_COMMON_OFF) 0 magic BLOCK (Z.of_nat size)
  = Return (envelope_prefix magic size ++ bytearray 4).
Proof.
  intros Hm Hs. unfold pack_into_L12sL, pack_unsigned. rewrite Hm, Hs, !bind_Return.
  fold (envelope_prefix magic size). unfold pack_into.
  rewrite length_envelope_prefix, length_bytearray.
  rewrite bool_decide_eq_true_2 by (unfold BTC_HDR_COMMON_OFF; lia).
  reflexivity.
Qed.

Section BuildBlockMessage.

Variable sha256 : bytes → bytes.
Lemma build_block_message_fits (magic : Z) (parts : list bytes) (size : nat) :
  fits_unsigned 4 magic = true →
  fits_unsigned 4 (Z.of_nat size) = true →
  size = length (concat parts) →
  build_block_message sha256 magic parts size
  = Return {| buf := envelope_prefix magic size
                     ++ slice (bitcoin_hash sha256 (concat parts)) 0 4
                     ++ concat parts |}.
Proof.
  intros Hm Hs Hsize. unfold build_block_message.
  rewrite pack_into_L12sL_header, bind_Return by done.
  set (hdr := envelope_prefix magic size ++ bytearray 4).
  assert (length hdr = 24) as Hhdr
    by (unfold hdr; rewrite length_app, length_envelope_prefix; done).
  change (foldl copy_round (bytearray (size + BTC_HDR_COMMON_OFF), 0) (hdr :: parts))
    with (foldl copy_round (bytearray (size + 24), 0) (hdr :: parts)).
  rewrite copy_rounds_exact by (cbn [concat]; rewrite length_app; lia).
  cbn [concat]. unfold slice_assign, slice, BTC_HDR_COMMON_OFF, BTC_HEADER_MINUS_CHECKSUM.
  do 2 f_equal.
  rewrite !drop_app_length' by done.
  rewrite (take_ge (concat parts)) by lia.
  rewrite take_app_le by lia. unfold hdr.
  rewrite take_app_length' by (by rewrite length_envelope_prefix).
  done.
Qed.

Lemma build_block_message_overflow (magic : Z) (parts : list bytes) (size : nat) :
  fits_unsigned 4 magic && fits_unsigned 4 (Z.of_nat size) = false →
  build_block_message sha256 magic parts size = Raise StructError.
Proof.
  intros H. unfold build_block_message, pack_into_L12sL, pack_unsigned.
  destruct (fits_unsigned 4 magic), (fits_unsigned 4 (Z.of_nat size)); done.
Qed.

End BuildBlockMessage.

(** ** The slot loop *)

Section SlotLoop.

Variable prefilled_txs : list (nat * bytes).
Variable short_ids : list string.
Variable short_id_to_tx_hash : gmap string bytes.

Local Abbreviation round := (slot_round prefilled_txs short_ids short_id_to_tx_hash).
Local Abbreviation resolve := (resolve_slots prefilled_txs short_ids short_id_to_tx_hash).

Lemma length_resolve_slots (cursor : nat) (indices : list nat) :
  length (resolve cursor indices) = length indices.
Proof.
  revert cursor; induction indices as [|i r IH]; intros k; simpl; [done|].
  destruct (_get_prefilled_tx_by_index prefilled_txs i); simpl; by rewrite IH.
Qed.

Lemma slot_round_prefilled (st : slot_state) (index : nat) (tx : bytes) :
  _get_prefilled_tx_by_index prefilled_txs index = Some tx →
  round st index
  = Return {| st_block_msg_parts := st_block_msg_parts st ++ [tx];
              st_block_transactions := st_block_transactions st ++ [Some tx];
              st_missing_transactions_indices := st_missing_transactions_indices st;
              st_size := st_size st + length tx;
              st_short_tx_index := st_short_tx_index st |}.
Proof. intros H. unfold slot_round. by rewrite H. Qed.

Lemma slot_round_cached (st : slot_state) (index : nat) (sid : string) (tx : bytes) :
  _get_prefilled_tx_by_index prefilled_txs index = None →
  short_ids !! st_short_tx_index st = Some sid →
  short_id_to_tx_hash !! sid = Some tx →
  round st index
  = Return {| st_block_msg_parts := st_block_msg_parts st ++ [tx];
              st_block_transactions := st_block_transactions st ++ [Some tx];
              st_missing_transactions_indices := st_missing_transactions_indices st;
              st_size := st_size st + length tx;
              st_short_tx_index := st_short_tx_index st + 1 |}.
Proof.
  intros H Hs Hm. unfold slot_round, list_index. rewrite H, Hs, bind_Return. by rewrite Hm.
Qed.

Lemma slot_round_missing (st : slot_state) (index : nat) (sid : string) :
  _get_prefilled_tx_by_index prefilled_txs index = None →
  short_ids !! st_short_tx_index st = Some sid →
  short_id_to_tx_hash !! sid = None →
  round st index
  = Return {| st_block_msg_parts := st_block_msg_parts st;
              st_block_transactions := st_block_transactions st ++ [None];
              st_missing_transactions_indices :=
                st_missing_transactions_indices st ++ [index];
              st_size := st_size st;
              st_short_tx_index := st_short_tx_index st + 1 |}.
Proof.
  intros H Hs Hm. unfold slot_round, list_index. rewrite H, Hs, bind_Return. by rewrite Hm.
Qed.

Lemma slot_round_index_error (st : slot_state) (index : nat) :
  _get_prefilled_tx_by_index prefilled_txs index = None →
  short_ids !! st_short_tx_index st = None →
  round st index = Raise IndexError.
Proof. intros H Hs. unfold slot_round, list_index. by rewrite H, Hs. Qed.

Lemma slot_loop_returns (indices : list nat) (st : slot_state) :
  st_short_tx_index st + count_short prefilled_txs indices ≤ length short_ids →
  for_each round indices st
  = Return
      {| st_block_msg_parts :=
           st_block_msg_parts st ++ filled (resolve (st_short_tx_index st) indices);
         st_block_transactions :=
           st_block_transactions st ++ resolve (st_short_tx_index st) indices;
         st_missing_transactions_indices :=
           st_missing_transactions_indices st
           ++ missing_in indices (resolve (st_short_tx_index st) indices);
         st_size :=
           st_size st
           + length (concat (filled (resolve (st_short_tx_index st) indices)));
         st_short_tx_index :=
           st_short_tx_index st + count_short prefilled_txs indices |}.
Proof.
  revert st; induction indices as [|i r IH]; intros st Hk.
  - destruct st; simpl. by rewrite !app_nil_r, !Nat.add_0_r.
  - cbn [for_each resolve_slots count_short] in *.
    destruct (_get_prefilled_tx_by_index prefilled_txs i) as [tx|] eqn:Hp.
    + rewrite (slot_round_prefilled _ _ _ Hp), bind_Return, IH by done. cbn.
      rewrite <- !(assoc_L (++)), length_app. unfold filled. f_equal. f_equal. lia.
    + destruct (lookup_lt_is_Some_2 short_ids (st_short_tx_index st)) as [sid Hsid];
        [lia|].
      rewrite Hsid. cbn [mbind option_bind].
      destruct (short_id_to_tx_hash !! sid) as [tx|] eqn:Hm.
      * rewrite (slot_round_cached _ _ _ _ Hp Hsid Hm), bind_Return, IH by (cbn; lia).
        cbn. rewrite <- !(assoc_L (++)), length_app. unfold filled. f_equal. f_equal; lia.
      * rewrite (slot_round_missing _ _ _ Hp Hsid Hm), bind_Return, IH by (cbn; lia).
        cbn. rewrite <- !(assoc_L (++)). unfold filled. f_equal. f_equal; lia.
Qed.

Lemma slot_loop_raises (indices : list nat) (st : slot_state) :
  st_short_tx_index st ≤ length short_ids →
  length short_ids < st_short_tx_index st + count_short prefilled_txs indices →
  for_each round indices st = Raise IndexError.
Proof.
  revert st; induction indices as [|i r IH]; intros st Hle Hk; cbn in Hk; [lia|].
  cbn [for_each].
  destruct (_get_prefilled_tx_by_index prefilled_txs i) as [tx|] eqn:Hp.
  - rewrite (slot_round_prefilled _ _ _ Hp), bind_Return. by apply IH.
  - destruct (short_ids !! st_short_tx_index st) as [sid|] eqn:Hsid.
    + apply lookup_lt_Some in Hsid as Hlt.
      destruct (short_id_to_tx_hash !! sid) as [tx|] eqn:Hm.
      * rewrite (slot_round_cached _ _ _ _ Hp Hsid Hm), bind_Return.
        apply IH; cbn; lia.
      * rewrite (slot_round_missing _ _ _ Hp Hsid Hm), bind_Return.
        apply IH; cbn; lia.
    + by rewrite (slot_round_index_error _ _ Hp Hsid).
Qed.

End SlotLoop.

(** ** Prefilled indices and the short-id cursor *)

Lemma get_prefilled_None (prefilled_txs : list (nat * bytes)) (index : nat) :
  _get_prefilled_tx_by_index prefilled_txs index = None ↔ index ∉ prefilled_txs.*1.
Proof.
  induction prefilled_txs as [|[i tx] r IH]; simpl.
  - split; [intros _; apply not_elem_of_nil|done].
  - rewrite not_elem_of_cons. case_bool_decide; simpl in *.
    + split; [done|]. intros [? _]. congruence.
    + rewrite IH. split; [intros ?; split; [congruence|done]|by intros [_ ?]].
Qed.

Lemma count_short_filter (prefilled_txs : list (nat * bytes)) (indices : list nat) :
  count_short prefilled_txs indices
  + length (filter (λ i, i ∈ prefilled_txs.*1) indices)
  = length indices.
Proof.
  induction indices as [|i r IH]; simpl; [done|].
  destruct (_get_prefilled_tx_by_index prefilled_txs i) eqn:Hp.
  - rewrite filter_cons_True; [simpl; lia|].
    destruct (decide (i ∈ prefilled_txs.*1)) as [|Hn]; [done|].
    apply get_prefilled_None in Hn. congruence.
  - rewrite filter_cons_False; [simpl; lia|].
    by apply get_prefilled_None.
Qed.

Lemma prefilled_in_range_length (l : list nat) (n : nat) :
  length (filter (λ i, i ∈ l) (seq 0 n)) ≤ length l
  ∧ (length (filter (λ i, i ∈ l) (seq 0 n)) = length l
     ↔ NoDup l ∧ Forall (λ i, i < n) l).
Proof.
  assert (filter (λ i, i ∈ l) (seq 0 n) ⊆+ l) as Hsub.
  { apply NoDup_submseteq; [apply NoDup_filter, NoDup_seq|].
    intros x Hx. by apply list_elem_of_filter in Hx as [? _]. }
  split; [by apply submseteq_length|split].
  - intros Hlen. apply submseteq_length_Permutation in Hsub; [|lia].
    split.
    + rewrite <- Hsub. apply NoDup_filter, NoDup_seq.
    + rewrite <- Hsub. apply Forall_forall. intros x Hx.
      apply list_elem_of_filter in Hx as [_ Hx]. apply elem_of_seq in Hx. lia.
  - intros [Hnd Hlt]. apply Nat.le_antisymm; [by apply submseteq_length|].
    apply submseteq_length, NoDup_submseteq; [done|].
    intros x Hx. apply list_elem_of_filter. split; [done|].
    rewrite Forall_forall in Hlt. apply elem_of_seq. specialize (Hlt x Hx). lia.
Qed.

Lemma count_short_well_formed (msg : CompactBlockBtcMessage) :
  well_formed_prefilled msg →
  count_short (prefilled_txns msg) (seq 0 (total_txs_count msg)) = length (short_ids msg).
Proof.
  intros Hwf. apply prefilled_in_range_length in Hwf.
  pose proof (count_short_filter (prefilled_txns msg) (seq 0 (total_txs_count msg))) as Hc.
  rewrite length_seq in Hc. unfold prefilled_indices in Hwf. rewrite Hwf in Hc.
  unfold total_txs_count in *. rewrite length_fmap in Hc. lia.
Qed.

Lemma count_short_malformed (msg : CompactBlockBtcMessage) :
  ¬ well_formed_prefilled msg →
  length (short_ids msg) < count_short (prefilled_txns msg) (seq 0 (total_txs_count msg)).
Proof.
  intros Hwf.
  pose proof (prefilled_in_range_length (prefilled_indices msg) (total_txs_count msg))
    as [Hle Hiff].
  pose proof (count_short_filter (prefilled_txns msg) (seq 0 (total_txs_count msg))) as Hc.
  rewrite length_seq in Hc. unfold prefilled_indices, total_txs_count in *.
  rewrite length_fmap in *.
  destruct (decide (length (filter (λ i, i ∈ (prefilled_txns msg).*1)
                              (seq 0 (length (prefilled_txns msg) + length (short_ids msg))))
                    = length (prefilled_txns msg))) as [He|Hne].
  - exfalso. apply Hwf. by apply Hiff.
  - lia.
Qed.

(** ** Missing indices *)

Lemma missing_in_seq (pre slots : list (option bytes)) :
  missing_in (seq (length pre) (length slots)) slots
  = filter (λ i, (pre ++ slots) !! i = Some None) (seq (length pre) (length slots)).
Proof.
  revert pre; induction slots as [|x r IH]; intros pre; [done|].
  cbn [length seq missing_in].
  specialize (IH (pre ++ [x])). rewrite length_app, Nat.add_1_r in IH.
  rewrite <- (assoc_L (++)) in IH. cbn [app] in IH.
  assert ((pre ++ x :: r) !! length pre = Some x) as Hx
    by (by rewrite list_lookup_middle).
  destruct x as [tx|].
  - rewrite filter_cons_False by (rewrite Hx; congruence). done.
  - rewrite filter_cons_True by done. by rewrite IH.
Qed.

Lemma missing_in_none_positions (slots : list (option bytes)) :
  missing_in (seq 0 (length slots)) slots = none_positions slots.
Proof. apply (missing_in_seq [] slots). Qed.

Lemma none_positions_elem (slots : list (option bytes)) (i : nat) :
  i ∈ none_positions slots ↔ slots !! i = Some None.
Proof.
  unfold none_positions. rewrite list_elem_of_filter, elem_of_seq.
  split; [by intros [? _]|]. intros H. split; [done|].
  apply lookup_lt_Some in H. lia.
Qed.

Lemma none_positions_nil (slots : list (option bytes)) :
  none_positions slots = [] ↔ None ∉ slots.
Proof.
  split.
  - intros Hnil [i Hi]%list_elem_of_lookup.
    apply none_positions_elem in Hi. rewrite Hnil in Hi. by apply not_elem_of_nil in Hi.
  - intros Hn. destruct (none_positions slots) as [|i r] eqn:He; [done|].
    exfalso. apply Hn. apply (list_elem_of_lookup_2 _ i).
    apply none_positions_elem. rewrite He. left.
Qed.

Lemma filled_all (slots : list (option bytes)) :
  None ∉ slots → Some <$> filled slots = slots.
Proof.
  unfold filled. induction slots as [|[tx|] r IH]; intros Hn; [done| |].
  - cbn. f_equal. apply IH. intros ?. apply Hn. by right.
  - exfalso. apply Hn. left.
Qed.

Lemma length_filled_all (slots : list (option bytes)) :
  None ∉ slots → length (filled slots) = length slots.
Proof. intros H. rewrite <- (filled_all slots H) at 2. by rewrite length_fmap. Qed.

(** ** The decompressor as a function of the resolved slots *)

Section DecompressorFacts.

Variable sha256 : bytes → bytes.
Variable siphash24 : bytes → bytes → bytes.
Variable hex_to_bytes : string → bytes.
Variable bytes_to_hex : bytes → string.

Local Abbreviation decompress :=
  (decompress_compact_block sha256 siphash24 hex_to_bytes bytes_to_hex).
Local Abbreviation slots_of := (slot_list sha256 siphash24 hex_to_bytes bytes_to_hex).

Lemma length_slot_list (msg : CompactBlockBtcMessage) (ts : TransactionService) :
  length (slots_of msg ts) = total_txs_count msg.
Proof. unfold slot_list. by rewrite length_resolve_slots, length_seq. Qed.

Lemma decompress_compact_block_well_formed (magic : Z) (msg : CompactBlockBtcMessage)
    (ts : TransactionService) :
  well_formed_prefilled msg →
  decompress magic msg ts
  = if bool_decide (0 < length (none_positions (slots_of msg ts)))
    then Return (partial_result (slots_of msg ts) (none_positions (slots_of msg ts)))
    else
      block_msg ← build_block_message sha256 magic
                    ([block_header msg; btc_varint (Z.of_nat (total_txs_count msg))]
                     ++ filled (slots_of msg ts))
                    (length (block_header msg)
                     + get_sizeof_btc_varint (Z.of_nat (total_txs_count msg))
                     + length (concat (filled (slots_of msg ts))));
      Return (complete_result block_msg).
Proof.
  intros Hwf. unfold decompress_compact_block.
  fold (total_txs_count msg).
  rewrite pack_int_to_btc_varint_fresh, bind_Return.
  rewrite slot_loop_returns
    by (cbn [st_short_tx_index]; rewrite count_short_well_formed by done; lia).
  rewrite bind_Return. cbn [st_short_tx_index st_missing_transactions_indices
    st_block_transactions st_block_msg_parts st_size app].
  fold (short_id_to_tx_hash_of sha256 siphash24 hex_to_bytes bytes_to_hex msg ts).
  fold (slots_of msg ts).
  assert (missing_in (seq 0 (total_txs_count msg)) (slots_of msg ts)
          = none_positions (slots_of msg ts)) as ->
    by (by rewrite <- missing_in_none_positions, length_slot_list).
  done.
Qed.

Lemma decompress_compact_block_malformed (magic : Z) (msg : CompactBlockBtcMessage)
    (ts : TransactionService) :
  ¬ well_formed_prefilled msg →
  decompress magic msg ts = Raise IndexError.
Proof.
  intros Hwf. unfold decompress_compact_block.
  fold (total_txs_count msg).
  rewrite pack_int_to_btc_varint_fresh, bind_Return.
  rewrite slot_loop_raises; [done|cbn; lia|].
  cbn [st_short_tx_index]. by apply count_short_malformed.
Qed.

End DecompressorFacts.

Lemma StronglySorted_filter_seq (P : nat → Prop) `{∀ i, Decision (P i)} (j n : nat) :
  StronglySorted lt (filter P (seq j n)).
Proof.
  revert j; induction n as [|n IH]; intros j; cbn [seq]; [constructor|].
  destruct (decide (P j)).
  - rewrite filter_cons_True by done. constructor; [apply IH|].
    apply Forall_forall. intros x [_ Hx%elem_of_seq]%list_elem_of_filter. lia.
  - rewrite filter_cons_False by done. apply IH.
Qed.

(** Evaluates a decidable proposition. *)
Ltac by_evaluation := apply (bool_decide_unpack _); vm_compute; exact I.

(** ** The decompressor's results *)

Section DecompressorResults.

Variable sha256 : bytes → bytes.
Variable siphash24 : bytes → bytes → bytes.
Variable hex_to_bytes : string → bytes.
Variable bytes_to_hex : bytes → string.

Local Abbreviation decompress :=
  (decompress_compact_block sha256 siphash24 hex_to_bytes bytes_to_hex).
Local Abbreviation slots_of := (slot_list sha256 siphash24 hex_to_bytes bytes_to_hex).

Lemma decompress_compact_block_complete (magic : Z) (msg : CompactBlockBtcMessage)
    (ts : TransactionService) :
  well_formed_prefilled msg →
  None ∉ slots_of msg ts →
  fits_unsigned 4 magic = true →
  fits_unsigned 4 (Z.of_nat (length (block_payload msg (filled (slots_of msg ts))))) = true →
  decompress magic msg ts
  = Return (complete_result
              {| buf := block_message_bytes sha256 magic msg (filled (slots_of msg ts)) |}).
Proof.
  intros Hwf Hnone Hm Hs.
  rewrite decompress_compact_block_well_formed by done.
  apply none_positions_nil in Hnone as Hnil. rewrite Hnil.
  rewrite bool_decide_eq_false_2 by (cbn; lia).
  assert (Z.of_nat (total_txs_count msg)
          = Z.of_nat (length (filled (slots_of msg ts)))) as HN
    by (by rewrite length_filled_all, length_slot_list).
  assert (concat ([block_header msg; btc_varint (Z.of_nat (total_txs_count msg))]
                  ++ filled (slots_of msg ts))
          = block_payload msg (filled (slots_of msg ts))) as Hcat
    by (by rewrite HN).
  assert (length (block_header msg)
          + get_sizeof_btc_varint (Z.of_nat (total_txs_count msg))
          + length (concat (filled (slots_of msg ts)))
          = length (block_payload msg (filled (slots_of msg ts)))) as ->.
  { unfold block_payload. rewrite !length_app, length_btc_varint, HN. lia. }
  rewrite build_block_message_fits by (by rewrite ?Hcat).
  by rewrite bind_Return, Hcat.
Qed.


(** C1 (amended).  For every compact block whose prefilled indices are
    pairwise distinct and below the slot count [N = len(prefilled) +
    len(short_ids)], and every transaction cache, [decompress_compact_block]
    returns a complete result or a partial one, never both.  When no slot is
    missing (and the magic and the payload length fit the envelope's 32-bit
    fields) it returns success with the assembled block and no slot list;
    otherwise it returns, with no block, a slot list of length [N] and the
    missing indices, which are exactly the indices of the [None] slots, in
    ascending order. *)
Theorem decompress_compact_block_complete_xor_partial (magic : Z)
    (msg : CompactBlockBtcMessage) (ts : TransactionService) :
  well_formed_prefilled msg →
  (None ∉ slots_of msg ts →
   fits_unsigned 4 magic = true →
   fits_unsigned 4 (Z.of_nat (length (block_payload msg (filled (slots_of msg ts))))) = true →
   ∃ block_msg,
     decompress magic msg ts = Return (complete_result block_msg)
     ∧ buf block_msg = block_message_bytes sha256 magic msg (filled (slots_of msg ts)))
  ∧ (None ∈ slots_of msg ts →
     ∃ slots missing,
       decompress magic msg ts = Return (partial_result slots missing)
       ∧ length slots = length (prefilled_txns msg) + length (short_ids msg)
       ∧ (∀ i, i ∈ missing ↔ slots !! i = Some None)
       ∧ StronglySorted lt missing).
Proof.
  intros Hwf. split.
  - intros Hnone Hm Hs. eexists. split.
    + by apply decompress_compact_block_complete.
    + done.
  - intros Hnone. exists (slots_of msg ts), (none_positions (slots_of msg ts)).
    split; [|split; [apply length_slot_list|split]].
    + rewrite decompress_compact_block_well_formed by done.
      destruct (none_positions (slots_of msg ts)) eqn:He.
      * apply none_positions_nil in He. done.
      * rewrite bool_decide_eq_true_2 by (cbn; lia). done.
    + apply none_positions_elem.
    + apply StronglySorted_filter_seq.
Qed.

(** C4 (amended).  For every compact block message containing a duplicate
    prefilled index or a prefilled index greater than or equal to the slot
    count [N], [decompress_compact_block] raises [IndexError] (the read
    [short_ids[short_tx_index]] runs past the end of the short ids): it
    returns no result and emits no block. *)
Theorem decompress_compact_block_malformed_raises (magic : Z)
    (msg : CompactBlockBtcMessage) (ts : TransactionService) :
  ¬ NoDup (prefilled_indices msg)
  ∨ Exists (λ i, total_txs_count msg ≤ i) (prefilled_indices msg) →
  decompress magic msg ts = Raise IndexError.
Proof.
  intros Hbad. apply decompress_compact_block_malformed.
  intros [Hnd Hlt]. destruct Hbad as [Hdup|Hout]; [done|].
  apply Exists_exists in Hout as (i & Hi & Hge).
  rewrite Forall_forall in Hlt. specialize (Hlt i Hi). lia.
Qed.

(** C10.  Every result [decompress_compact_block] returns has one of two
    shapes: with [success] true the block message is present and both
    [block_transactions] and [missing_transactions_indices] are [None]; with
    [success] false there is no block message, the slot list is present and
    the list of missing indices is present and not empty. *)
Theorem decompress_compact_block_result_shape (magic : Z)
    (msg : CompactBlockBtcMessage) (ts : TransactionService)
    (r : CompactBlockDecompressionResult) :
  decompress magic msg ts = Return r →
  (success r = true →
   is_Some (block_btc_message r)
   ∧ block_transactions r = None
   ∧ missing_transactions_indices r = None)
  ∧ (success r = false →
     block_btc_message r = None
     ∧ is_Some (block_transactions r)
     ∧ ∃ missing, missing_transactions_indices r = Some missing ∧ missing ≠ []).
Proof.
  unfold decompress_compact_block.
  rewrite pack_int_to_btc_varint_fresh, bind_Return.
  destruct (for_each _ _ _) as [st|e]; [rewrite bind_Return|by rewrite bind_Raise].
  case_bool_decide as Hmiss.
  - intros [= <-]. cbn. split; [done|]. intros _. split; [done|split; [done|]].
    eexists; split; [done|]. intros Hnil. rewrite Hnil in Hmiss. cbn in Hmiss. lia.
  - destruct (build_block_message _ _ _ _) as [b|e];
      [rewrite bind_Return|by rewrite bind_Raise].
    intros [= <-]. cbn. split; [|done]. intros _. by split; [eexists|].
Qed.

End DecompressorResults.

Lemma decompress_compact_block_complete_xor_partial_witness :
  well_formed_prefilled Sample.msg
  ∧ (∃ block_msg,
       Sample.decompress Sample.magic Sample.msg Sample.full_cache
       = Return (complete_result block_msg))
  ∧ Sample.decompress Sample.magic Sample.msg Sample.cache_without_tx2
    = Return (partial_result [Some Sample.CB; Some Sample.tx1; None] [2]).
Proof.
  assert (well_formed_prefilled Sample.msg) as Hwf by by_evaluation.
  split; [exact Hwf|split].
  - destruct (decompress_compact_block_complete_xor_partial
                Sample.sha256 Sample.siphash24 Sample.hex_to_bytes Sample.bytes_to_hex
                Sample.magic Sample.msg Sample.full_cache Hwf) as [Hcomplete _].
    destruct Hcomplete as (b & Hb & _); [by_evaluation|by vm_compute..|].
    by exists b.
  - destruct (decompress_compact_block_complete_xor_partial
                Sample.sha256 Sample.siphash24 Sample.hex_to_bytes Sample.bytes_to_hex
                Sample.magic Sample.msg Sample.cache_without_tx2 Hwf) as [_ Hpartial].
    destruct Hpartial as (slots & missing & Hr & _); [by_evaluation|].
    by vm_compute.
Defined.

Lemma decompress_compact_block_total_counterexample :
  ¬ ∃ r, Sample.decompress Sample.magic Sample.msg_out_of_range Sample.full_cache
         = Return r.
Proof. intros [r Hr]. vm_compute in Hr. discriminate. Qed.

Lemma decompress_compact_block_malformed_raises_witness :
  ¬ NoDup (prefilled_indices Sample.msg_duplicate)
  ∧ Sample.decompress Sample.magic Sample.msg_duplicate Sample.full_cache
    = Raise IndexError.
Proof.
  assert (¬ NoDup (prefilled_indices Sample.msg_duplicate)) as Hdup by by_evaluation.
  split; [exact Hdup|].
  apply (decompress_compact_block_malformed_raises
           Sample.sha256 Sample.siphash24 Sample.hex_to_bytes Sample.bytes_to_hex).
  left. exact Hdup.
Defined.

Lemma decompress_compact_block_decode_error_counterexample :
  ¬ NoDup (prefilled_indices Sample.msg_duplicate)
  ∧ ¬ ∃ r, Sample.decompress Sample.magic Sample.msg_duplicate Sample.full_cache
           = Return r
           ∧ success r = false ∧ block_btc_message r = None.
Proof.
  split; [by_evaluation|].
  intros (r & Hr & _). vm_compute in Hr. discriminate.
Qed.

Lemma decompress_compact_block_result_shape_witness :
  Sample.decompress Sample.magic Sample.msg Sample.cache_without_tx2
  = Return (partial_result [Some Sample.CB; Some Sample.tx1; None] [2])
  ∧ ∃ missing,
      missing_transactions_indices
        (partial_result [Some Sample.CB; Some Sample.tx1; None] [2]) = Some missing
      ∧ missing ≠ [].
Proof.
  assert (Sample.decompress Sample.magic Sample.msg Sample.cache_without_tx2
          = Return (partial_result [Some Sample.CB; Some Sample.tx1; None] [2])) as Hr
    by (by vm_compute).
  split; [exact Hr|].
  apply (decompress_compact_block_result_shape
           Sample.sha256 Sample.siphash24 Sample.hex_to_bytes Sample.bytes_to_hex
           _ _ _ _ Hr).
  reflexivity.
Defined.

(** ** The recovery loop *)

Lemma write_recovered_pairs (missing_indices : list nat) (recovered : list bytes)
    (n i : nat) (block_transactions : list (option bytes)) :
  i + n = length missing_indices →
  length missing_indices = length recovered →
  write_recovered block_transactions missing_indices recovered i n
  = write_pairs block_transactions (zip (drop i missing_indices) (drop i recovered)).
Proof.
  revert i block_transactions; induction n as [|n IH]; intros i bt Hi Hlen.
  - rewrite !drop_ge by lia. done.
  - cbn [write_recovered]. unfold list_index.
    destruct (lookup_lt_is_Some_2 missing_indices i) as [j Hj]; [lia|].
    destruct (lookup_lt_is_Some_2 recovered i) as [tx Htx]; [lia|].
    rewrite Hj, Htx.
    rewrite (drop_S _ _ _ Hj), (drop_S _ _ _ Htx). cbn [zip zip_with write_pairs].
    case_bool_decide; [|done]. rewrite IH by lia. by rewrite Nat.add_1_r.
Qed.

Lemma length_fill_slots (pairs : list (nat * bytes)) (slots : list (option bytes)) :
  length (fill_slots slots pairs) = length slots.
Proof.
  revert slots; induction pairs as [|p r IH]; intros slots; [done|].
  cbn. unfold fill_slots in IH. by rewrite IH, length_insert.
Qed.

Lemma write_pairs_in_range (pairs : list (nat * bytes)) (slots : list (option bytes)) :
  Forall (λ i, i < length slots) pairs.*1 →
  write_pairs slots pairs = (fill_slots slots pairs, Return ()).
Proof.
  revert slots; induction pairs as [|[j tx] r IH]; intros slots Hall; [done|].
  apply Forall_cons in Hall as [Hj Hall]. cbn in *.
  rewrite bool_decide_eq_true_2 by done.
  apply IH. by rewrite length_insert.
Qed.

Lemma write_pairs_outcome (pairs : list (nat * bytes)) (slots : list (option bytes)) :
  (write_pairs slots pairs).2 = Return ()
  ∧ Forall (λ i, i < length slots) pairs.*1
  ∨ (write_pairs slots pairs).2 = Raise IndexError
    ∧ ¬ Forall (λ i, i < length slots) pairs.*1.
Proof.
  revert slots; induction pairs as [|[j tx] r IH]; intros slots.
  - left. by split; [|constructor].
  - cbn. case_bool_decide as Hj.
    + destruct (IH (<[j:=Some tx]> slots)) as [[-> Hall]|[-> Hall]];
        rewrite length_insert in Hall; [left|right]; (split; [done|]).
      * by constructor.
      * intros [_ ?]%Forall_cons. done.
    + right. split; [done|]. intros [? _]%Forall_cons. done.
Qed.

Lemma fill_slots_lookup_other (pairs : list (nat * bytes)) (slots : list (option bytes))
    (j : nat) :
  j ∉ pairs.*1 → fill_slots slots pairs !! j = slots !! j.
Proof.
  revert slots; induction pairs as [|[k tx] r IH]; intros slots Hj; [done|].
  cbn in *. apply not_elem_of_cons in Hj as [Hne Hj].
  unfold fill_slots in IH. rewrite IH by done. by apply list_lookup_insert_ne.
Qed.

Lemma fill_slots_lookup_last (pre post : list (nat * bytes)) (slots : list (option bytes))
    (j : nat) (tx : bytes) :
  j < length slots → j ∉ post.*1 →
  fill_slots slots (pre ++ (j, tx) :: post) !! j = Some (Some tx).
Proof.
  intros Hj Hpost. unfold fill_slots. rewrite foldl_app. cbn [foldl].
  fold (fill_slots slots pre).
  fold (fill_slots (<[j:=Some tx]> (fill_slots slots pre)) post).
  rewrite fill_slots_lookup_other by done.
  apply list_lookup_insert_eq. by rewrite length_fill_slots.
Qed.

Lemma transaction_rounds_filled (slots : list (option bytes)) (parts : list bytes)
    (size : nat) :
  None ∉ slots →
  for_each transaction_round slots (parts, size)
  = Return (parts ++ filled slots, size + length (concat (filled slots))).
Proof.
  revert parts size; induction slots as [|[tx|] r IH]; intros parts size Hn.
  - cbn. by rewrite app_nil_r, Nat.add_0_r.
  - cbn [for_each transaction_round]. rewrite bind_Return, IH.
    + cbn. rewrite <- (assoc_L (++)), length_app. do 2 f_equal. unfold filled. lia.
    + intros ?. apply Hn. by right.
  - exfalso. apply Hn. left.
Qed.

Lemma transaction_rounds_none (slots : list (option bytes)) (st : list bytes * nat) :
  None ∈ slots → for_each transaction_round slots st = Raise TypeError.
Proof.
  revert st; induction slots as [|[tx|] r IH]; intros st Hn.
  - by apply not_elem_of_nil in Hn.
  - cbn [for_each transaction_round]. rewrite bind_Return. apply IH.
    by apply elem_of_cons in Hn as [|].
  - done.
Qed.

Lemma fill_slots_lookup_at (pairs : list (nat * bytes)) (slots : list (option bytes))
    (i j : nat) (tx : bytes) :
  pairs !! i = Some (j, tx) →
  (∀ i' p, i < i' → pairs !! i' = Some p → p.1 ≠ j) →
  j < length slots →
  fill_slots slots pairs !! j = Some (Some tx).
Proof.
  intros Hi Hlater Hj.
  rewrite <- (take_drop_middle pairs i (j, tx) Hi).
  apply fill_slots_lookup_last; [done|].
  intros [[k tx'] [Hk Hin]]%list_elem_of_fmap. cbn in Hk. subst k.
  apply list_elem_of_lookup in Hin as [n Hn]. rewrite lookup_drop in Hn.
  by apply (Hlater (S i + n) (j, tx')); [lia| |].
Qed.

(** ** The recovery resolver *)

Section Resolver.

Variable sha256 : bytes → bytes.

Local Abbreviation recover := (decompress_recovered_compact_block sha256).

Lemma decompress_recovered_mismatch (magic : Z) (msg : CompactBlockBtcMessage)
    (slots : list (option bytes)) (missing_indices : list nat) (recovered : list bytes) :
  length missing_indices ≠ length recovered →
  recover magic msg slots missing_indices recovered
  = (slots, Return {| recovery_success := false; recovery_block_btc_message := None |}).
Proof.
  intros H. unfold decompress_recovered_compact_block.
  by rewrite bool_decide_eq_true_2.
Qed.

(** With as many recovered transactions as missing indices, the caller's
    list is what the write loop leaves, and every result is a success. *)
Lemma decompress_recovered_same_length (magic : Z) (msg : CompactBlockBtcMessage)
    (slots : list (option bytes)) (missing_indices : list nat) (recovered : list bytes) :
  length missing_indices = length recovered →
  (recover magic msg slots missing_indices recovered).1
  = (write_pairs slots (zip missing_indices recovered)).1
  ∧ (∀ r, (recover magic msg slots missing_indices recovered).2 = Return r →
          recovery_success r = true
          ∧ is_Some (recovery_block_btc_message r)
          ∧ (write_pairs slots (zip missing_indices recovered)).2 = Return ()).
Proof.
  intros Hlen. unfold decompress_recovered_compact_block.
  rewrite bool_decide_eq_false_2 by (intros ?; done).
  rewrite write_recovered_pairs by done. rewrite !drop_0.
  destruct (write_pairs slots (zip missing_indices recovered)) as [slots' [[]|e]];
    cbn [fst snd]; (split; [done|]); intros r; [|by rewrite bind_Raise].
  rewrite bind_Return, pack_int_to_btc_varint_fresh, bind_Return.
  destruct (for_each _ _ _) as [st|e]; [rewrite bind_Return|by rewrite bind_Raise].
  destruct (build_block_message _ _ _ _) as [b|e];
    [rewrite bind_Return|by rewrite bind_Raise].
  intros [= <-]. cbn. by split; [|split; [eexists|]].
Qed.

Lemma decompress_recovered_success (magic : Z) (msg : CompactBlockBtcMessage)
    (slots : list (option bytes)) (missing_indices : list nat) (recovered : list bytes) :
  length missing_indices = length recovered →
  Forall (λ i, i < length slots) missing_indices →
  None ∉ fill_slots slots (zip missing_indices recovered) →
  fits_unsigned 4 magic = true →
  fits_unsigned 4
    (Z.of_nat (length (block_payload msg
                         (filled (fill_slots slots (zip missing_indices recovered))))))
  = true →
  recover magic msg slots missing_indices recovered
  = (fill_slots slots (zip missing_indices recovered),
     Return
       {| recovery_success := true;
          recovery_block_btc_message :=
            Some {| buf :=
              block_message_bytes sha256 magic msg
                (filled (fill_slots slots (zip missing_indices recovered))) |} |}).
Proof.
  intros Hlen Hrange Hnone Hm Hs. unfold decompress_recovered_compact_block.
  rewrite bool_decide_eq_false_2 by (intros ?; done).
  rewrite write_recovered_pairs by done. rewrite !drop_0.
  rewrite write_pairs_in_range by (rewrite fst_zip by lia; done).
  set (slots' := fill_slots slots (zip missing_indices recovered)) in *.
  rewrite bind_Return, pack_int_to_btc_varint_fresh, bind_Return.
  rewrite transaction_rounds_filled, bind_Return by done. cbn [fst snd app].
  assert (Z.of_nat (length slots') = Z.of_nat (length (filled slots'))) as HN
    by (by rewrite length_filled_all).
  assert (concat ([block_header msg; btc_varint (Z.of_nat (length slots'))]
                  ++ filled slots')
          = block_payload msg (filled slots')) as Hcat
    by (by rewrite HN).
  assert (0 + length (block_header msg)
          + get_sizeof_btc_varint (Z.of_nat (length slots'))
          + length (concat (filled slots'))
          = length (block_payload msg (filled slots'))) as ->.
  { unfold block_payload. rewrite !length_app, length_btc_varint, HN. lia. }
  cbn [app] in Hcat.
  rewrite build_block_message_fits by (by rewrite ?Hcat).
  by rewrite bind_Return, Hcat.
Qed.

Lemma zip_lookup_later (missing_indices : list nat) (recovered : list bytes) (i j : nat) :
  (∀ i', i < i' → missing_indices !! i' ≠ Some j) →
  ∀ i' p, i < i' → zip missing_indices recovered !! i' = Some p → p.1 ≠ j.
Proof.
  intros Hlater i' [k tx] Hi' Hp Hk. cbn in Hk. subst k.
  apply lookup_zip_with_Some in Hp as (x & y & [= <- <-] & Hx & _).
  by apply (Hlater i').
Qed.

(** C5 (amended).  [decompress_recovered_compact_block] returns the failure
    result ([success] false, no block) if and only if the number of
    recovered transactions differs from the number of missing indices.
    Otherwise, when every missing index is within the slot list, no slot is
    [None] after the writes, and the magic and the payload length fit the
    envelope's unsigned 32-bit fields, it writes [recovered[i]] into the
    slot [missing_indices[i]] for every [i] (for an index listed more than
    once the last write stays) and returns success with the assembled block
    message. *)
Theorem decompress_recovered_compact_block_mismatch_iff (magic : Z)
    (msg : CompactBlockBtcMessage) (slots : list (option bytes))
    (missing_indices : list nat) (recovered : list bytes) :
  ((recover magic msg slots missing_indices recovered).2
   = Return {| recovery_success := false; recovery_block_btc_message := None |}
   ↔ length missing_indices ≠ length recovered)
  ∧ (length missing_indices = length recovered →
     Forall (λ i, i < length slots) missing_indices →
     None ∉ fill_slots slots (zip missing_indices recovered) →
     fits_unsigned 4 magic = true →
     fits_unsigned 4
       (Z.of_nat (length (block_payload msg
                            (filled (fill_slots slots (zip missing_indices recovered))))))
     = true →
     (∀ i j tx,
        missing_indices !! i = Some j → recovered !! i = Some tx →
        (∀ i', i < i' → missing_indices !! i' ≠ Some j) →
        (recover magic msg slots missing_indices recovered).1 !! j = Some (Some tx))
     ∧ ∃ block_msg,
         (recover magic msg slots missing_indices recovered).2
         = Return {| recovery_success := true;
                     recovery_block_btc_message := Some block_msg |}
         ∧ buf block_msg
           = block_message_bytes sha256 magic msg
               (filled (recover magic msg slots missing_indices recovered).1)).
Proof.
  split; [split|].
  - intros Hr. destruct (decide (length missing_indices = length recovered)) as [He|]; [|done].
    destruct (decompress_recovered_same_length magic msg slots _ _ He) as [_ Hs].
    by destruct (Hs _ Hr) as [? _].
  - intros Hne. by rewrite decompress_recovered_mismatch.
  - intros Hlen Hrange Hnone Hm Hs.
    rewrite decompress_recovered_success by done. cbn [fst snd]. split.
    + intros i j tx Hi Htx Hlater.
      apply (fill_slots_lookup_at _ _ i).
      * apply lookup_zip_with_Some. by exists j, tx.
      * by apply zip_lookup_later.
      * rewrite Forall_forall in Hrange. apply Hrange. by apply list_elem_of_lookup_2 in Hi.
    + eexists. split; [done|]. done.
Qed.

(** C9.  [decompress_recovered_compact_block] changes the caller's
    [block_transactions] list in place.  On the length-mismatch path the
    list is left as it was.  On success the list keeps its length, every
    position not listed in [missing_indices] is unchanged, and every listed
    position holds the recovered transaction that corresponds to it (for a
    position listed more than once, the one of its last occurrence). *)
Theorem decompress_recovered_compact_block_frame (magic : Z)
    (msg : CompactBlockBtcMessage) (slots : list (option bytes))
    (missing_indices : list nat) (recovered : list bytes) :
  (length missing_indices ≠ length recovered →
   (recover magic msg slots missing_indices recovered).1 = slots)
  ∧ (∀ r,
       (recover magic msg slots missing_indices recovered).2 = Return r →
       recovery_success r = true →
       length (recover magic msg slots missing_indices recovered).1 = length slots
       ∧ (∀ j, j ∉ missing_indices →
               (recover magic msg slots missing_indices recovered).1 !! j = slots !! j)
       ∧ (∀ i j,
            missing_indices !! i = Some j →
            (∀ i', i < i' → missing_indices !! i' ≠ Some j) →
            ∃ tx, recovered !! i = Some tx
                  ∧ (recover magic msg slots missing_indices recovered).1 !! j
                    = Some (Some tx))).
Proof.
  split.
  - intros Hne. by rewrite decompress_recovered_mismatch.
  - intros r Hr Hsucc.
    destruct (decide (length missing_indices = length recovered)) as [Hlen|Hne].
    2:{ rewrite decompress_recovered_mismatch in Hr by done.
        cbn in Hr. injection Hr as <-. done. }
    destruct (decompress_recovered_same_length magic msg slots _ _ Hlen)
      as [Hstore Hres].
    destruct (Hres r Hr) as (_ & _ & Hw).
    destruct (write_pairs_outcome (zip missing_indices recovered) slots)
      as [[_ Hrange]|[Hraise _]]; [|congruence].
    rewrite Hstore, write_pairs_in_range by done. cbn [fst].
    rewrite fst_zip in Hrange by lia.
    split; [apply length_fill_slots|split].
    + intros j Hj. apply fill_slots_lookup_other. by rewrite fst_zip by lia.
    + intros i j Hi Hlater.
      destruct (lookup_lt_is_Some_2 recovered i) as [tx Htx].
      { apply lookup_lt_Some in Hi. lia. }
      exists tx. split; [done|].
      apply (fill_slots_lookup_at _ _ i).
      * apply lookup_zip_with_Some. by exists j, tx.
      * by apply zip_lookup_later.
      * rewrite Forall_forall in Hrange. apply Hrange. by apply list_elem_of_lookup_2 in Hi.
Qed.

End Resolver.

Lemma decompress_recovered_compact_block_mismatch_iff_witness :
  (Sample.recover Sample.magic Sample.msg
     [Some Sample.CB; Some Sample.tx1; None] [2] [Sample.tx2; Sample.tx3]).2
  = Return {| recovery_success := false; recovery_block_btc_message := None |}
  ∧ ∃ block_msg,
      (Sample.recover Sample.magic Sample.msg
         [Some Sample.CB; Some Sample.tx1; None] [2] [Sample.tx2]).2
      = Return {| recovery_success := true;
                  recovery_block_btc_message := Some block_msg |}.
Proof.
  split.
  - apply (decompress_recovered_compact_block_mismatch_iff Sample.sha256).
    cbn. lia.
  - destruct (decompress_recovered_compact_block_mismatch_iff Sample.sha256
                Sample.magic Sample.msg [Some Sample.CB; Some Sample.tx1; None]
                [2] [Sample.tx2]) as [_ Hfill].
    destruct Hfill as (_ & b & Hb & _);
      [reflexivity|by_evaluation|by_evaluation|by vm_compute..|].
    by exists b.
Defined.

(** With as many recovered transactions as missing indices the resolver
    need not assemble a block: a [None] slot that is not listed, or a
    listed index outside the list, ends the call in an exception. *)
Lemma decompress_recovered_compact_block_assembles_counterexample :
  length [0] = length [Sample.tx1]
  ∧ Sample.recover Sample.magic Sample.msg [None; None] [0] [Sample.tx1]
    = ([Some Sample.tx1; None], Raise TypeError)
  ∧ (¬ ∃ r,
       (Sample.recover Sample.magic Sample.msg [None; None] [0] [Sample.tx1]).2
       = Return r)
  ∧ length [7] = length [Sample.tx1]
  ∧ Sample.recover Sample.magic Sample.msg [None] [7] [Sample.tx1]
    = ([None], Raise IndexError)
  ∧ (¬ ∃ r,
       (Sample.recover Sample.magic Sample.msg [None] [7] [Sample.tx1]).2 = Return r).
Proof.
  repeat split; try (vm_compute; reflexivity).
  - intros [r Hr]. vm_compute in Hr. discriminate.
  - intros [r Hr]. vm_compute in Hr. discriminate.
Qed.

Lemma decompress_recovered_compact_block_frame_witness :
  ∃ r,
    (Sample.recover Sample.magic Sample.msg
       [Some Sample.CB; Some Sample.tx1; None] [2] [Sample.tx2]).2 = Return r
    ∧ recovery_success r = true
    ∧ (Sample.recover Sample.magic Sample.msg
         [Some Sample.CB; Some Sample.tx1; None] [2] [Sample.tx2]).1 !! 1
      = Some (Some Sample.tx1).
Proof.
  assert (∃ r,
    (Sample.recover Sample.magic Sample.msg
       [Some Sample.CB; Some Sample.tx1; None] [2] [Sample.tx2]).2 = Return r
    ∧ recovery_success r = true) as (r & Hr & Hs).
  { eexists. split; vm_compute; reflexivity. }
  exists r. split; [exact Hr|split; [exact Hs|]].
  destruct (decompress_recovered_compact_block_frame Sample.sha256
              Sample.magic Sample.msg [Some Sample.CB; Some Sample.tx1; None]
              [2] [Sample.tx2]) as [_ Hframe].
  destruct (Hframe r Hr Hs) as (_ & Hother & _).
  rewrite Hother; [reflexivity|by_evaluation].
Defined.

(** ** Recovery against a cache that holds every transaction *)

Lemma resolve_slots_mono (prefilled_txs : list (nat * bytes)) (short_ids : list string)
    (m1 m2 : gmap string bytes) (indices : list nat) (cursor p : nat) (tx : bytes) :
  m1 ⊆ m2 →
  resolve_slots prefilled_txs short_ids m1 cursor indices !! p = Some (Some tx) →
  resolve_slots prefilled_txs short_ids m2 cursor indices !! p = Some (Some tx).
Proof.
  intros Hsub. revert cursor p; induction indices as [|i r IH]; intros k p; [done|].
  cbn [resolve_slots].
  destruct (_get_prefilled_tx_by_index prefilled_txs i) as [ptx|].
  - destruct p as [|p]; [done|]. apply IH.
  - destruct p as [|p]; [|apply IH]. cbn.
    destruct (short_ids !! k) as [sid|]; [|done]. cbn.
    intros [= Hm]. f_equal. by apply (lookup_weaken m1 m2).
Qed.

Lemma build_block_message_returns (sha256 : bytes → bytes) (magic : Z)
    (parts : list bytes) (size : nat) (b : BlockBtcMessage) :
  build_block_message sha256 magic parts size = Return b →
  fits_unsigned 4 magic = true ∧ fits_unsigned 4 (Z.of_nat size) = true.
Proof.
  intros Hb.
  destruct (fits_unsigned 4 magic && fits_unsigned 4 (Z.of_nat size)) eqn:Hf.
  - by apply andb_true_iff in Hf.
  - by rewrite build_block_message_overflow in Hb.
Qed.

Section DecompressorInversion.

Variable sha256 : bytes → bytes.
Variable siphash24 : bytes → bytes → bytes.
Variable hex_to_bytes : string → bytes.
Variable bytes_to_hex : bytes → string.

Local Abbreviation decompress :=
  (decompress_compact_block sha256 siphash24 hex_to_bytes bytes_to_hex).
Local Abbreviation slots_of := (slot_list sha256 siphash24 hex_to_bytes bytes_to_hex).

Lemma decompress_returns_well_formed (magic : Z) (msg : CompactBlockBtcMessage)
    (ts : TransactionService) (r : CompactBlockDecompressionResult) :
  decompress magic msg ts = Return r → well_formed_prefilled msg.
Proof.
  intros Hr. destruct (decide (well_formed_prefilled msg)) as [|Hn]; [done|].
  by rewrite decompress_compact_block_malformed in Hr.
Qed.

Lemma decompress_partial_inv (magic : Z) (msg : CompactBlockBtcMessage)
    (ts : TransactionService) (slots : list (option bytes)) (missing : list nat) :
  decompress magic msg ts = Return (partial_result slots missing) →
  well_formed_prefilled msg
  ∧ slots = slots_of msg ts
  ∧ missing = none_positions (slots_of msg ts).
Proof.
  intros Hr. pose proof (decompress_returns_well_formed _ _ _ _ Hr) as Hwf.
  split; [done|]. rewrite decompress_compact_block_well_formed in Hr by done.
  case_bool_decide.
  - by injection Hr as <- <-.
  - destruct (build_block_message _ _ _ _) as [b|e]; [|by rewrite bind_Raise in Hr].
    by rewrite bind_Return in Hr.
Qed.

Lemma decompress_complete_inv (magic : Z) (msg : CompactBlockBtcMessage)
    (ts : TransactionService) (block_msg : BlockBtcMessage) :
  decompress magic msg ts = Return (complete_result block_msg) →
  well_formed_prefilled msg
  ∧ (None ∉ slots_of msg ts)
  ∧ fits_unsigned 4 magic = true
  ∧ fits_unsigned 4 (Z.of_nat (length (block_payload msg (filled (slots_of msg ts))))) = true
  ∧ buf block_msg = block_message_bytes sha256 magic msg (filled (slots_of msg ts)).
Proof.
  intros Hr. pose proof (decompress_returns_well_formed _ _ _ _ Hr) as Hwf.
  split; [done|]. pose proof Hr as Hr'.
  rewrite decompress_compact_block_well_formed in Hr' by done.
  case_bool_decide as Hmiss; [done|].
  assert (None ∉ slots_of msg ts) as Hnone.
  { apply none_positions_nil. destruct (none_positions _); [done|]. cbn in Hmiss. lia. }
  split; [done|].
  destruct (build_block_message _ _ _ _) as [b|e] eqn:Hb; [|by rewrite bind_Raise in Hr'].
  apply build_block_message_returns in Hb as [Hm Hs].
  assert (length (block_header msg)
          + get_sizeof_btc_varint (Z.of_nat (total_txs_count msg))
          + length (concat (filled (slots_of msg ts)))
          = length (block_payload msg (filled (slots_of msg ts)))) as Hsize.
  { unfold block_payload.
    rewrite !length_app, length_btc_varint, length_filled_all, length_slot_list by done.
    lia. }
  rewrite Hsize in Hs. split; [done|split; [done|]].
  rewrite decompress_compact_block_complete in Hr by done.
  by injection Hr as <-.
Qed.

Lemma none_positions_lt (slots : list (option bytes)) :
  Forall (λ i, i < length slots) (none_positions slots).
Proof.
  apply Forall_forall. intros i Hi%none_positions_elem. by apply lookup_lt_Some in Hi.
Qed.

Lemma none_positions_NoDup (slots : list (option bytes)) : NoDup (none_positions slots).
Proof. apply NoDup_filter, NoDup_seq. Qed.

(** C3.  When the decompression of a compact block against a cache yields
    a partial result with missing indices [missing], feeding that partial
    into [decompress_recovered_compact_block] with the true transactions for
    [missing] (in the order of [missing]) yields bytewise the block message
    that [decompress_compact_block] produces against a cache that extends
    the first one and contains every referenced transaction. *)
Theorem recovery_completes (magic : Z) (msg : CompactBlockBtcMessage)
    (ts ts_full : TransactionService) (slots : list (option bytes))
    (missing : list nat) (recovered : list bytes) (block_msg : BlockBtcMessage) :
  decompress magic msg ts = Return (partial_result slots missing) →
  short_id_to_tx_hash_of sha256 siphash24 hex_to_bytes bytes_to_hex msg ts
  ⊆ short_id_to_tx_hash_of sha256 siphash24 hex_to_bytes bytes_to_hex msg ts_full →
  decompress magic msg ts_full = Return (complete_result block_msg) →
  Forall2 (λ i tx, slots_of msg ts_full !! i = Some (Some tx)) missing recovered →
  decompress_recovered_compact_block sha256 magic msg slots missing recovered
  = (slots_of msg ts_full,
     Return {| recovery_success := true;
               recovery_block_btc_message := Some block_msg |}).
Proof.
  intros Hpartial Hsub Hcomplete Htrue.
  apply decompress_partial_inv in Hpartial as (Hwf & -> & ->).
  apply decompress_complete_inv in Hcomplete as (_ & Hnone & Hm & Hs & Hbuf).
  apply Forall2_length in Htrue as Hlen.
  assert (fill_slots (slots_of msg ts) (zip (none_positions (slots_of msg ts)) recovered)
          = slots_of msg ts_full) as Hfill.
  { apply list_eq. intros j.
    destruct (decide (j ∈ none_positions (slots_of msg ts))) as [Hj|Hj].
    - apply list_elem_of_lookup in Hj as [i Hi].
      destruct (Forall2_lookup_l _ _ _ _ _ Htrue Hi) as (tx & Htx & Hfull).
      rewrite Hfull. apply (fill_slots_lookup_at _ _ i).
      + apply lookup_zip_with_Some. by exists j, tx.
      + apply zip_lookup_later. intros i' Hi' Hdup.
        pose proof (NoDup_lookup _ _ _ _ (none_positions_NoDup _) Hi Hdup). lia.
      + pose proof (none_positions_lt (slots_of msg ts)) as Hlt.
        rewrite Forall_forall in Hlt. apply Hlt. by apply list_elem_of_lookup_2 in Hi.
    - rewrite fill_slots_lookup_other by (by rewrite fst_zip by lia).
      destruct (slots_of msg ts !! j) as [[tx|]|] eqn:Hs1.
      + symmetry. unfold slot_list in *. by apply (resolve_slots_mono _ _ _ _ _ _ _ _ Hsub).
      + exfalso. apply Hj. by apply none_positions_elem.
      + symmetry. apply lookup_ge_None. apply lookup_ge_None in Hs1.
        by rewrite length_slot_list in *. }
  rewrite decompress_recovered_success; rewrite ?Hfill; try done.
  - destruct block_msg as [b]. cbn in Hbuf. by rewrite Hbuf.
  - pose proof (none_positions_lt (slots_of msg ts)) as Hlt. done.
Qed.

End DecompressorInversion.

Lemma recovery_completes_witness :
  ∃ block_msg,
    Sample.decompress Sample.magic Sample.msg Sample.full_cache
    = Return (complete_result block_msg)
    ∧ Sample.recover Sample.magic Sample.msg
        [Some Sample.CB; Some Sample.tx1; None] [2] [Sample.tx2]
      = ([Some Sample.CB; Some Sample.tx1; Some Sample.tx2],
         Return {| recovery_success := true;
                   recovery_block_btc_message := Some block_msg |}).
Proof.
  assert (∃ block_msg,
    Sample.decompress Sample.magic Sample.msg Sample.full_cache
    = Return (complete_result block_msg)) as [b Hb].
  { eexists. vm_compute. reflexivity. }
  exists b. split; [exact Hb|].
  apply (recovery_completes Sample.sha256 Sample.siphash24 Sample.hex_to_bytes
           Sample.bytes_to_hex Sample.magic Sample.msg
           Sample.cache_without_tx2 Sample.full_cache).
  - by vm_compute.
  - by_evaluation.
  - exact Hb.
  - repeat constructor.
Defined.

(** ** The envelope of an emitted block message *)

Lemma decompress_recovered_inv (sha256 : bytes → bytes) (magic : Z)
    (msg : CompactBlockBtcMessage) (slots : list (option bytes))
    (missing_indices : list nat) (recovered : list bytes)
    (r : CompactBlockRecoveryResult) (block_msg : BlockBtcMessage) :
  (decompress_recovered_compact_block sha256 magic msg slots missing_indices recovered).2
  = Return r →
  recovery_block_btc_message r = Some block_msg →
  (None ∉ fill_slots slots (zip missing_indices recovered))
  ∧ fits_unsigned 4
      (Z.of_nat (length (block_payload msg
                           (filled (fill_slots slots (zip missing_indices recovered))))))
    = true
  ∧ buf block_msg
    = block_message_bytes sha256 magic msg
        (filled (fill_slots slots (zip missing_indices recovered))).
Proof.
  intros Hr Hb.
  destruct (decide (length missing_indices = length recovered)) as [Hlen|Hne].
  2:{ rewrite decompress_recovered_mismatch in Hr by done.
      cbn in Hr. injection Hr as <-. done. }
  destruct (decompress_recovered_same_length sha256 magic msg slots _ _ Hlen)
    as [_ Hres].
  destruct (Hres r Hr) as (_ & _ & Hw).
  destruct (write_pairs_outcome (zip missing_indices recovered) slots)
    as [[_ Hrange]|[Hraise _]]; [|congruence].
  rewrite fst_zip in Hrange by lia.
  set (slots' := fill_slots slots (zip missing_indices recovered)) in *.
  assert (None ∉ slots') as Hnone.
  { intros Hin. revert Hr. unfold decompress_recovered_compact_block.
    rewrite bool_decide_eq_false_2 by (intros ?; done).
    rewrite write_recovered_pairs by done. rewrite !drop_0.
    rewrite write_pairs_in_range by (rewrite fst_zip by lia; done).
    fold slots'. cbn [snd].
    rewrite bind_Return, pack_int_to_btc_varint_fresh, bind_Return.
    by rewrite transaction_rounds_none. }
  split; [done|].
  destruct (fits_unsigned 4 magic
            && fits_unsigned 4 (Z.of_nat (length (block_payload msg (filled slots')))))
    eqn:Hfits.
  - apply andb_true_iff in Hfits as [Hm Hs]. split; [done|].
    rewrite decompress_recovered_success in Hr by done.
    cbn in Hr. injection Hr as <-. cbn in Hb. by injection Hb as <-.
  - exfalso. revert Hr. unfold decompress_recovered_compact_block.
    rewrite bool_decide_eq_false_2 by (intros ?; done).
    rewrite write_recovered_pairs by done. rewrite !drop_0.
    rewrite write_pairs_in_range by (rewrite fst_zip by lia; done).
    fold slots'. cbn [snd].
    rewrite bind_Return, pack_int_to_btc_varint_fresh, bind_Return.
    rewrite transaction_rounds_filled, bind_Return by done. cbn [fst snd].
    rewrite build_block_message_overflow; [by rewrite bind_Raise|].
    rewrite <- Hfits. do 3 f_equal.
    unfold block_payload.
    rewrite !length_app, length_btc_varint, length_filled_all by done. lia.
Qed.

Lemma decompress_result_cases (sha256 : bytes → bytes) (siphash24 : bytes → bytes → bytes)
    (hex_to_bytes : string → bytes) (bytes_to_hex : bytes → string) (magic : Z)
    (msg : CompactBlockBtcMessage) (ts : TransactionService)
    (r : CompactBlockDecompressionResult) :
  decompress_compact_block sha256 siphash24 hex_to_bytes bytes_to_hex magic msg ts
  = Return r →
  (∃ block_msg, r = complete_result block_msg)
  ∨ (∃ slots missing, r = partial_result slots missing).
Proof.
  intros Hr. pose proof (decompress_returns_well_formed _ _ _ _ _ _ _ _ Hr) as Hwf.
  rewrite decompress_compact_block_well_formed in Hr by done.
  case_bool_decide.
  - right. injection Hr as <-. by eexists _, _.
  - destruct (build_block_message _ _ _ _) as [b|e]; [|by rewrite bind_Raise in Hr].
    rewrite bind_Return in Hr. injection Hr as <-. left. by eexists.
Qed.

Section Envelope.

Variable sha256 : bytes → bytes.
Variable siphash24 : bytes → bytes → bytes.
Variable hex_to_bytes : string → bytes.
Variable bytes_to_hex : bytes → string.
Hypothesis sha256_length : ∀ data, length (sha256 data) = 32.

Lemma block_message_bytes_envelope (magic : Z) (msg : CompactBlockBtcMessage)
    (txs : list bytes) (m : BlockBtcMessage) :
  fits_unsigned 4 (Z.of_nat (length (block_payload msg txs))) = true →
  buf m = block_message_bytes sha256 magic msg txs →
  payload m = block_payload msg txs
  ∧ envelope_checksum m = take 4 (sha256 (sha256 (payload m)))
  ∧ envelope_payload_len m = Z.of_nat (length (payload m)).
Proof.
  intros Hs Hbuf.
  assert (length (slice (bitcoin_hash sha256 (block_payload msg txs)) 0 4) = 4) as Hc.
  { unfold slice, bitcoin_hash. rewrite length_take, drop_0, sha256_length. lia. }
  assert (payload m = block_payload msg txs) as Hp.
  { unfold payload. rewrite Hbuf. unfold block_message_bytes.
    rewrite (assoc_L (++)). apply drop_app_length'.
    by rewrite length_app, length_envelope_prefix, Hc. }
  split; [done|split].
  - unfold envelope_checksum. rewrite Hbuf, Hp. unfold block_message_bytes.
    set (c := slice (bitcoin_hash sha256 (block_payload msg txs)) 0 4) in *.
    unfold slice at 1.
    rewrite drop_app_length' by (by rewrite length_envelope_prefix).
    rewrite take_app_length' by done.
    unfold c, slice, bitcoin_hash. by rewrite drop_0.
  - unfold envelope_payload_len. rewrite Hbuf, Hp.
    unfold block_message_bytes, envelope_prefix, slice.
    rewrite <- !(assoc_L (++)).
    rewrite (assoc_L (++) (le_bytes 4 magic)).
    rewrite drop_app_length'
      by (by rewrite length_app, length_le_bytes, length_pack_string).
    rewrite take_app_length' by (by rewrite length_le_bytes).
    by apply le_value_le_bytes_fits.
Qed.

(** C6.  For every block message emitted by the decompressor or by the
    recovery resolver, the 4-byte checksum field of its 24-byte envelope is
    the first 4 bytes of the double SHA-256 of the payload, and the
    envelope's payload-length field is the payload's actual length, the
    payload being the header, the varint transaction count and all the
    transactions. *)
Theorem emitted_block_envelope_valid (magic : Z) (msg : CompactBlockBtcMessage) :
  (∀ ts r block_msg,
     decompress_compact_block sha256 siphash24 hex_to_bytes bytes_to_hex magic msg ts
     = Return r →
     block_btc_message r = Some block_msg →
     envelope_checksum block_msg = take 4 (sha256 (sha256 (payload block_msg)))
     ∧ envelope_payload_len block_msg = Z.of_nat (length (payload block_msg))
     ∧ ∃ txs, length txs = length (prefilled_txns msg) + length (short_ids msg)
              ∧ payload block_msg
                = block_header msg ++ btc_varint (Z.of_nat (length txs)) ++ concat txs)
  ∧ (∀ slots missing_indices recovered r block_msg,
       (decompress_recovered_compact_block sha256 magic msg slots missing_indices
          recovered).2 = Return r →
       recovery_block_btc_message r = Some block_msg →
       envelope_checksum block_msg = take 4 (sha256 (sha256 (payload block_msg)))
       ∧ envelope_payload_len block_msg = Z.of_nat (length (payload block_msg))
       ∧ ∃ txs, length txs = length slots
                ∧ payload block_msg
                  = block_header msg ++ btc_varint (Z.of_nat (length txs)) ++ concat txs).
Proof.
  split.
  - intros ts r b Hr Hb.
    destruct (decompress_result_cases _ _ _ _ _ _ _ _ Hr) as [[b' ->]|(? & ? & ->)];
      [|done].
    cbn in Hb. injection Hb as ->.
    apply decompress_complete_inv in Hr as (_ & Hnone & _ & Hs & Hbuf).
    destruct (block_message_bytes_envelope _ _ _ _ Hs Hbuf) as (Hp & Hc & Hl).
    split; [done|split; [done|]].
    eexists. split; [|exact Hp].
    by rewrite length_filled_all, length_slot_list.
  - intros slots missing_indices recovered r b Hr Hb.
    apply (decompress_recovered_inv _ _ _ _ _ _ _ _ Hr) in Hb as (Hnone & Hs & Hbuf).
    destruct (block_message_bytes_envelope _ _ _ _ Hs Hbuf) as (Hp & Hc & Hl).
    split; [done|split; [done|]].
    eexists. split; [|exact Hp].
    by rewrite length_filled_all, length_fill_slots.
Qed.

End Envelope.

Lemma emitted_block_envelope_valid_witness :
  (∀ data, length (Sample.sha256 data) = 32)
  ∧ ∃ block_msg,
      Sample.decompress Sample.magic Sample.msg Sample.full_cache
      = Return (complete_result block_msg)
      ∧ envelope_payload_len block_msg = 93%Z
      ∧ envelope_payload_len block_msg = Z.of_nat (length (payload block_msg)).
Proof.
  assert (∀ data, length (Sample.sha256 data) = 32) as Hlen.
  { intros data. unfold Sample.sha256.
    rewrite length_take, length_app, length_replicate. lia. }
  split; [exact Hlen|].
  assert (∃ block_msg,
    Sample.decompress Sample.magic Sample.msg Sample.full_cache
    = Return (complete_result block_msg)) as [b Hb].
  { eexists. vm_compute. reflexivity. }
  exists b. split; [exact Hb|].
  destruct (emitted_block_envelope_valid Sample.sha256 Sample.siphash24
              Sample.hex_to_bytes Sample.bytes_to_hex Hlen Sample.magic Sample.msg)
    as [Hdec _].
  destruct (Hdec Sample.full_cache _ b Hb eq_refl) as (_ & Hl & _).
  split; [|exact Hl].
  vm_compute in Hb. injection Hb as <-. reflexivity.
Defined.

(** ** The short-id mapper *)

Section ShortIdMapper.

Variable sha256 : bytes → bytes.
Variable siphash24 : bytes → bytes → bytes.
Variable hex_to_bytes : string → bytes.
Variable bytes_to_hex : bytes → string.

Local Abbreviation mapping := (short_id_mapping siphash24 hex_to_bytes bytes_to_hex).
Local Abbreviation round := (short_id_round siphash24 hex_to_bytes bytes_to_hex).
Local Abbreviation hex_id key h :=
  (bytes_to_hex (spec_short_id siphash24 hex_to_bytes key h)).

Lemma siphash_key_spec (msg : CompactBlockBtcMessage) :
  siphash_key sha256 msg = spec_sip_key sha256 msg.
Proof.
  unfold siphash_key, spec_sip_key, sha256_digest, sha256_update, hashlib_sha256, slice.
  by rewrite drop_0.
Qed.

Lemma short_id_round_spec (key : bytes) (sids : list string) (ts : TransactionService)
    (m : gmap string bytes) (h : string) :
  round key sids ts m h
  = if decide (hex_id key h ∈ sids)
    then <[hex_id key h := get_transaction_by_hash ts h]> m
    else m.
Proof.
  unfold short_id_round, _compute_short_id, spec_short_id, slice.
  rewrite drop_0. change (6 - 0) with 6.
  case_bool_decide; by case_decide.
Qed.

(** The dict holds, for a short id of the block, the transaction of the
    last cached hash with that short id, and nothing for any other key. *)
Lemma short_id_mapping_lookup (key : bytes) (sids : list string) (ts : TransactionService)
    (sid : string) :
  mapping key sids ts !! sid
  = if decide (sid ∈ sids)
    then get_transaction_by_hash ts
           <$> last (filter (λ h, hex_id key h = sid) (get_all_transaction_hashes ts))
    else None.
Proof.
  unfold short_id_mapping.
  induction (get_all_transaction_hashes ts) as [|h l IH] using rev_ind.
  - cbn. rewrite lookup_empty. by case_decide.
  - rewrite foldl_app. cbn [foldl]. rewrite short_id_round_spec, filter_app.
    destruct (decide (hex_id key h = sid)) as [Heq|Hne].
    + rewrite (filter_cons_True _ h []) by done. rewrite filter_nil, last_snoc.
      subst sid. case_decide; [by rewrite lookup_insert_eq|done].
    + rewrite (filter_cons_False _ h []) by done. rewrite filter_nil, app_nil_r.
      destruct (decide (hex_id key h ∈ sids)); [by rewrite lookup_insert_ne|done].
Qed.

Lemma short_id_rounds_ext (key : bytes) (sids : list string) (ts ts' : TransactionService)
    (l : list string) (m : gmap string bytes) :
  (∀ h, h ∈ l → get_transaction_by_hash ts h = get_transaction_by_hash ts' h) →
  foldl (round key sids ts) m l = foldl (round key sids ts') m l.
Proof.
  revert m; induction l as [|h l IH]; intros m Hget; [done|].
  cbn [foldl]. rewrite IH by (intros h' Hh'; apply Hget; by right).
  f_equal. rewrite !short_id_round_spec, (Hget h) by left. done.
Qed.

(** C2.  For every compact block message, the SipHash key of its
    decompression is the first 16 bytes of the SHA-256 of the block header
    followed by the short nonce; and the dict built from the cache holds,
    under each short id of the block, the transaction of the last cached
    hash whose short id (the first 6 bytes of SipHash-2-4, under that key,
    of the byte-reversed raw hash, as hex) is that one. *)
Theorem short_id_derivation (msg : CompactBlockBtcMessage) :
  siphash_key sha256 msg = take 16 (sha256 (block_header msg ++ short_nonce_buf msg))
  ∧ ∀ ts sid,
      short_id_to_tx_hash_of sha256 siphash24 hex_to_bytes bytes_to_hex msg ts !! sid
      = if decide (sid ∈ short_ids msg)
        then get_transaction_by_hash ts
               <$> last (filter
                           (λ h, bytes_to_hex
                                   (take 6 (siphash24
                                              (take 16 (sha256 (block_header msg
                                                                ++ short_nonce_buf msg)))
                                              (rev (hex_to_bytes h))))
                                 = sid)
                           (get_all_transaction_hashes ts))
        else None.
Proof.
  split; [apply siphash_key_spec|].
  intros ts sid. unfold short_id_to_tx_hash_of.
  rewrite short_id_mapping_lookup, siphash_key_spec. done.
Qed.

(** C8.  Two runs of the short-id mapping with the same SipHash key and the
    same cache enumeration (the same hashes in the same order, with the same
    transactions) give equal maps.  When cached transactions collide on a
    short id of the block, the map holds under that short id exactly one
    transaction: that of the last colliding hash in the enumeration. *)
Theorem short_id_mapping_deterministic (key : bytes) (sids : list string)
    (ts : TransactionService) :
  (∀ ts',
     get_all_transaction_hashes ts = get_all_transaction_hashes ts' →
     (∀ h, h ∈ get_all_transaction_hashes ts →
           get_transaction_by_hash ts h = get_transaction_by_hash ts' h) →
     mapping key sids ts = mapping key sids ts')
  ∧ (∀ pre h post sid,
       get_all_transaction_hashes ts = pre ++ h :: post →
       hex_id key h = sid →
       sid ∈ sids →
       Forall (λ h', hex_id key h' ≠ sid) post →
       mapping key sids ts !! sid = Some (get_transaction_by_hash ts h)
       ∧ ∀ tx, mapping key sids ts !! sid = Some tx → tx = get_transaction_by_hash ts h).
Proof.
  split.
  - intros ts' Hhashes Hget. unfold short_id_mapping. rewrite <- Hhashes.
    by apply short_id_rounds_ext.
  - intros pre h post sid Hhashes Hh Hsid Hpost.
    assert (mapping key sids ts !! sid = Some (get_transaction_by_hash ts h)) as Hm.
    { rewrite short_id_mapping_lookup, decide_True, Hhashes by done.
      rewrite filter_app, filter_cons_True by done.
      assert (filter (λ h0, hex_id key h0 = sid) post = []) as ->.
      { clear Hhashes. induction Hpost as [|h' post' Hne _ IH]; [done|].
        by rewrite filter_cons_False. }
      by rewrite last_snoc. }
    split; [done|]. intros tx Htx. congruence.
Qed.

End ShortIdMapper.

Lemma short_id_mapping_deterministic_witness :
  short_id_mapping Sample.siphash24 Sample.hex_to_bytes Sample.bytes_to_hex
    [] ["aaa1xt"] Sample.colliding_cache !! "aaa1xt"
  = Some Sample.tx3.
Proof.
  destruct (short_id_mapping_deterministic Sample.siphash24 Sample.hex_to_bytes
              Sample.bytes_to_hex [] ["aaa1xt"] Sample.colliding_cache) as [_ Hlast].
  destruct (Hlast ["tx1aaa"] "Xtx1aaa" [] "aaa1xt") as [Hm _];
    [reflexivity|by vm_compute|by_evaluation|constructor|].
  exact Hm.
Defined.

(** ** Seen-blocks deduplication *)

Lemma msg_block_seen (msg : FullBlockMessage) (node : Node) :
  block_hash msg ∈ contents (blocks_seen node) →
  msg_block msg node
  = {| blocks_seen := blocks_seen node;
       calls := calls node
                ++ [add_block_event_by_block_hash (block_hash msg)
                      BLOCK_RECEIVED_FROM_BLOCKCHAIN_NODE;
                    add_block_event_by_block_hash (block_hash msg)
                      BLOCK_RECEIVED_FROM_BLOCKCHAIN_NODE_IGNORE_SEEN] |}.
Proof.
  intros Hseen. unfold msg_block, called. cbn.
  rewrite bool_decide_eq_true_2 by done. by rewrite <- (assoc_L (++)).
Qed.

Lemma msg_block_unseen (msg : FullBlockMessage) (node : Node) :
  block_hash msg ∉ contents (blocks_seen node) →
  msg_block msg node
  = {| blocks_seen := add (block_hash msg) (blocks_seen node);
       calls := calls node
                ++ [add_block_event_by_block_hash (block_hash msg)
                      BLOCK_RECEIVED_FROM_BLOCKCHAIN_NODE;
                    block_to_bx_block (block_hash msg);
                    add_block_event_by_block_hash (block_hash msg) BLOCK_COMPRESSED;
                    propagate_block_to_network (block_hash msg);
                    cancel_recovery_for_block (block_hash msg)] |}.
Proof.
  intros Hseen. unfold msg_block, called. cbn.
  rewrite bool_decide_eq_false_2 by done. by rewrite <- !(assoc_L (++)).
Qed.

(** A hash leaves the set only when an insertion overflows the capacity. *)
Lemma add_evicts_on_overflow (item h : bytes) (s : SeenBlocks) :
  h ∈ contents s → h ∉ contents (add item s) →
  (item ∉ contents s) ∧ capacity s ≤ length (contents s).
Proof.
  unfold add. case_bool_decide as Hin; [done|]. cbn. intros Hh Hgone.
  split; [done|]. rewrite length_app in Hgone. cbn in Hgone.
  destruct (decide (capacity s ≤ length (contents s))) as [|Hsmall]; [done|].
  exfalso. apply Hgone.
  replace (length (contents s) + 1 - capacity s) with 0 by lia.
  rewrite drop_0. apply elem_of_app. by left.
Qed.

Lemma add_retains (item : bytes) (s : SeenBlocks) :
  0 < capacity s → item ∈ contents (add item s).
Proof.
  intros Hcap. unfold add. case_bool_decide as Hin; [done|]. cbn.
  rewrite length_app. cbn.
  destruct (decide (capacity s ≤ length (contents s))).
  - rewrite drop_app_le by lia. apply elem_of_app. right. left.
  - replace (length (contents s) + 1 - capacity s) with 0 by lia.
    rewrite drop_0. apply elem_of_app. right. left.
Qed.

Lemma msg_blocks_no_second_propagation (msgs : list FullBlockMessage) (node : Node)
    (h : bytes) :
  (∀ k, k ≤ length msgs → h ∈ contents (blocks_seen (msg_blocks (take k msgs) node))) →
  ∃ new, calls (msg_blocks msgs node) = calls node ++ new
         ∧ propagate_block_to_network h ∉ new.
Proof.
  revert node; induction msgs as [|msg msgs IH]; intros node Hstays.
  - exists []. split; [by rewrite app_nil_r|apply not_elem_of_nil].
  - pose proof (Hstays 0 ltac:(lia)) as Hnow. cbn in Hnow.
    destruct (IH (msg_block msg node)) as (new & Hnew & Hnot).
    { intros k Hk. apply (Hstays (S k)). cbn. lia. }
    change (msg_blocks (msg :: msgs) node) with (msg_blocks msgs (msg_block msg node)).
    rewrite Hnew.
    destruct (decide (block_hash msg ∈ contents (blocks_seen node))) as [Hseen|Hunseen].
    + rewrite msg_block_seen by done. cbn. eexists. split; [by rewrite <- (assoc_L (++))|].
      rewrite !not_elem_of_app. split; [|done].
      rewrite !not_elem_of_cons. repeat split; try done. apply not_elem_of_nil.
    + rewrite msg_block_unseen by done. cbn. eexists. split; [by rewrite <- (assoc_L (++))|].
      rewrite !not_elem_of_app. split; [|done].
      rewrite !not_elem_of_cons. repeat split; try done; [|apply not_elem_of_nil].
      intros [= ->]. done.
Qed.

(** C7.  For an inbound full block whose hash is already in the
    seen-blocks set, [msg_block] records the [IGNORE_SEEN] event and returns
    without compressing, propagating, cancelling recovery or inserting into
    the set.  A hash in the set triggers no propagation for as long as it
    stays in the set, and it leaves the set only when the insertion of a new
    hash overflows the capacity; a block whose hash is not in the set is
    propagated and its hash inserted. *)
Theorem msg_block_deduplicates (node : Node) (h : bytes) :
  (∀ msg,
     block_hash msg = h → h ∈ contents (blocks_seen node) →
     msg_block msg node
     = {| blocks_seen := blocks_seen node;
          calls := calls node
                   ++ [add_block_event_by_block_hash h BLOCK_RECEIVED_FROM_BLOCKCHAIN_NODE;
                       add_block_event_by_block_hash h
                         BLOCK_RECEIVED_FROM_BLOCKCHAIN_NODE_IGNORE_SEEN] |})
  ∧ (∀ msgs,
       (∀ k, k ≤ length msgs →
             h ∈ contents (blocks_seen (msg_blocks (take k msgs) node))) →
       ∃ new, calls (msg_blocks msgs node) = calls node ++ new
              ∧ propagate_block_to_network h ∉ new)
  ∧ (∀ msg,
       h ∈ contents (blocks_seen node) →
       h ∉ contents (blocks_seen (msg_block msg node)) →
       (block_hash msg ∉ contents (blocks_seen node))
       ∧ capacity (blocks_seen node) ≤ length (contents (blocks_seen node)))
  ∧ (∀ msg,
       block_hash msg = h → h ∉ contents (blocks_seen node) →
       0 < capacity (blocks_seen node) →
       propagate_block_to_network h ∈ calls (msg_block msg node)
       ∧ h ∈ contents (blocks_seen (msg_block msg node))).
Proof.
  split; [|split; [|split]].
  - intros msg <- Hseen. by apply msg_block_seen.
  - intros msgs. apply msg_blocks_no_second_propagation.
  - intros msg Hh Hgone.
    destruct (decide (block_hash msg ∈ contents (blocks_seen node))) as [Hseen|Hunseen].
    + rewrite msg_block_seen in Hgone by done. done.
    + rewrite msg_block_unseen in Hgone by done. cbn in Hgone.
      by apply (add_evicts_on_overflow _ h).
  - intros msg <- Hunseen Hcap. rewrite msg_block_unseen by done. cbn. split.
    + apply elem_of_app. right. do 3 right. left.
    + by apply add_retains.
Qed.

Lemma msg_block_deduplicates_witness :
  msg_blocks [DispatchSample.block; DispatchSample.block] DispatchSample.fresh_node
  = {| blocks_seen := {| capacity := 2; contents := [DispatchSample.h] |};
       calls :=
         [add_block_event_by_block_hash DispatchSample.h
            BLOCK_RECEIVED_FROM_BLOCKCHAIN_NODE;
          block_to_bx_block DispatchSample.h;
          add_block_event_by_block_hash DispatchSample.h BLOCK_COMPRESSED;
          propagate_block_to_network DispatchSample.h;
          cancel_recovery_for_block DispatchSample.h;
          add_block_event_by_block_hash DispatchSample.h
            BLOCK_RECEIVED_FROM_BLOCKCHAIN_NODE;
          add_block_event_by_block_hash DispatchSample.h
            BLOCK_RECEIVED_FROM_BLOCKCHAIN_NODE_IGNORE_SEEN] |}.
Proof.
  change (msg_blocks [DispatchSample.block; DispatchSample.block] DispatchSample.fresh_node)
    with (msg_block DispatchSample.block
            (msg_block DispatchSample.block DispatchSample.fresh_node)).
  destruct (msg_block_deduplicates
              (msg_block DispatchSample.block DispatchSample.fresh_node)
              DispatchSample.h) as [Hseen _].
  rewrite (Hseen DispatchSample.block); [reflexivity|reflexivity|by_evaluation].
Defined.

(** ** The end-to-end scenarios of the specification, on the sample data *)

Example scenario_all_prefilled :
  ∃ block_msg,
    Sample.decompress Sample.magic (Sample.compact [] [(0, Sample.CB)]) Sample.full_cache
    = Return (complete_result block_msg)
    ∧ payload block_msg = replicate 80 x07 ++ [x01] ++ Sample.CB.
Proof. eexists. split; vm_compute; reflexivity. Qed.

Example scenario_fully_cached :
  ∃ block_msg,
    Sample.decompress Sample.magic Sample.msg Sample.full_cache
    = Return (complete_result block_msg)
    ∧ payload block_msg
      = replicate 80 x07 ++ [x03] ++ Sample.CB ++ Sample.tx1 ++ Sample.tx2.
Proof. eexists. split; vm_compute; reflexivity. Qed.

Example scenario_one_missing :
  Sample.decompress Sample.magic Sample.msg Sample.cache_without_tx2
  = Return (partial_result [Some Sample.CB; Some Sample.tx1; None] [2]).
Proof. vm_compute. reflexivity. Qed.

Example scenario_recovery_mismatch :
  Sample.recover Sample.magic Sample.msg
    [Some Sample.CB; Some Sample.tx1; None] [2] [Sample.tx2; Sample.tx3]
  = ([Some Sample.CB; Some Sample.tx1; None],
     Return {| recovery_success := false; recovery_block_btc_message := None |}).
Proof. vm_compute. reflexivity. Qed.

Example scenario_duplicate_prefilled_index :
  Sample.decompress Sample.magic Sample.msg_duplicate Sample.full_cache
  = Raise IndexError.
Proof. vm_compute. reflexivity. Qed.

Example scenario_oversized_magic :
  Sample.decompress (2 ^ 32) Sample.msg Sample.full_cache = Raise StructError.
Proof. vm_compute. reflexivity. Qed.

(** * Further properties of the decompressor *)

(** X1.  [_get_prefilled_tx_by_index] returns [None] exactly for an index
    that no prefilled entry carries, and for an index carried by several
    entries it returns the transaction of the first of them. *)
Theorem get_prefilled_first_match (prefilled_txs : list (nat * bytes)) (index : nat) :
  (_get_prefilled_tx_by_index prefilled_txs index = None ↔ index ∉ prefilled_txs.*1)
  ∧ (∀ pre tx post,
       prefilled_txs = pre ++ (index, tx) :: post → index ∉ pre.*1 →
       _get_prefilled_tx_by_index prefilled_txs index = Some tx).
Proof.
  split; [apply get_prefilled_None|].
  intros pre tx post -> Hpre.
  induction pre as [|[i t] pre IH]; cbn.
  - by rewrite bool_decide_eq_true_2.
  - cbn in Hpre. apply not_elem_of_cons in Hpre as [Hne Hpre].
    rewrite bool_decide_eq_false_2 by done. by apply IH.
Qed.

Lemma get_prefilled_first_match_witness :
  _get_prefilled_tx_by_index [(0, Sample.CB); (2, Sample.tx1); (2, Sample.tx2)] 2
  = Some Sample.tx1.
Proof.
  apply (get_prefilled_first_match _ 2) with (pre := [(0, Sample.CB)])
                                             (post := [(2, Sample.tx2)]);
    [reflexivity|by_evaluation].
Defined.

Lemma count_short_not_prefilled (prefilled_txs : list (nat * bytes)) (indices : list nat) :
  count_short prefilled_txs indices
  = length (filter (λ i, i ∉ prefilled_txs.*1) indices).
Proof.
  induction indices as [|i r IH]; [done|]. cbn [count_short].
  destruct (_get_prefilled_tx_by_index prefilled_txs i) eqn:Hp.
  - rewrite filter_cons_False; [done|].
    intros Hn. apply get_prefilled_None in Hn. congruence.
  - rewrite filter_cons_True by (by apply get_prefilled_None). cbn. by rewrite IH.
Qed.

(** The slot at position [p] of the walk: the prefilled transaction of its
    index, or else the cached transaction of the short id under the cursor,
    which has advanced once per earlier index without a prefilled entry. *)
Lemma resolve_slots_lookup (prefilled_txs : list (nat * bytes)) (short_ids : list string)
    (m : gmap string bytes) (indices : list nat) (cursor p index : nat) :
  indices !! p = Some index →
  resolve_slots prefilled_txs short_ids m cursor indices !! p
  = Some (match _get_prefilled_tx_by_index prefilled_txs index with
          | Some tx => Some tx
          | None =>
              short_ids !! (cursor + count_short prefilled_txs (take p indices))
              ≫= (m !!.)
          end).
Proof.
  revert cursor p; induction indices as [|i r IH]; intros k p Hp; [done|].
  destruct p as [|p].
  - cbn in Hp. injection Hp as ->. cbn.
    destruct (_get_prefilled_tx_by_index prefilled_txs index); [done|].
    by rewrite Nat.add_0_r.
  - cbn in Hp. cbn [resolve_slots take count_short].
    destruct (_get_prefilled_tx_by_index prefilled_txs i); cbn [lookup list_lookup];
      rewrite (IH _ _ Hp); [done|].
    by replace (k + 1 + count_short prefilled_txs (take p r))
      with (k + S (count_short prefilled_txs (take p r))) by lia.
Qed.

Section DecompressorOutcomes.

Variable sha256 : bytes → bytes.
Variable siphash24 : bytes → bytes → bytes.
Variable hex_to_bytes : string → bytes.
Variable bytes_to_hex : bytes → string.

Local Abbreviation decompress :=
  (decompress_compact_block sha256 siphash24 hex_to_bytes bytes_to_hex).
Local Abbreviation slots_of := (slot_list sha256 siphash24 hex_to_bytes bytes_to_hex).
Local Abbreviation dict_of :=
  (short_id_to_tx_hash_of sha256 siphash24 hex_to_bytes bytes_to_hex).

Lemma payload_size (msg : CompactBlockBtcMessage) (ts : TransactionService) :
  None ∉ slots_of msg ts →
  length (block_header msg)
  + get_sizeof_btc_varint (Z.of_nat (total_txs_count msg))
  + length (concat (filled (slots_of msg ts)))
  = length (block_payload msg (filled (slots_of msg ts))).
Proof.
  intros Hnone. unfold block_payload.
  rewrite !length_app, length_btc_varint, length_filled_all, length_slot_list by done.
  lia.
Qed.

Lemma decompress_compact_block_overflow (magic : Z) (msg : CompactBlockBtcMessage)
    (ts : TransactionService) :
  well_formed_prefilled msg →
  None ∉ slots_of msg ts →
  fits_unsigned 4 magic
  && fits_unsigned 4 (Z.of_nat (length (block_payload msg (filled (slots_of msg ts)))))
  = false →
  decompress magic msg ts = Raise StructError.
Proof.
  intros Hwf Hnone Hfits.
  rewrite decompress_compact_block_well_formed by done.
  apply none_positions_nil in Hnone as Hnil. rewrite Hnil.
  rewrite bool_decide_eq_false_2 by (cbn; lia).
  rewrite build_block_message_overflow; [done|].
  by rewrite payload_size.
Qed.

(** The three outcomes of a well-formed message. *)
Lemma decompress_compact_block_outcome (magic : Z) (msg : CompactBlockBtcMessage)
    (ts : TransactionService) :
  well_formed_prefilled msg →
  decompress magic msg ts
  = if decide (None ∈ slots_of msg ts)
    then Return (partial_result (slots_of msg ts) (none_positions (slots_of msg ts)))
    else if fits_unsigned 4 magic
            && fits_unsigned 4
                 (Z.of_nat (length (block_payload msg (filled (slots_of msg ts)))))
    then Return (complete_result
                   {| buf := block_message_bytes sha256 magic msg
                               (filled (slots_of msg ts)) |})
    else Raise StructError.
Proof.
  intros Hwf. case_decide as Hnone.
  - rewrite decompress_compact_block_well_formed by done.
    destruct (none_positions (slots_of msg ts)) eqn:He.
    + apply none_positions_nil in He. done.
    + by rewrite bool_decide_eq_true_2 by (cbn; lia).
  - destruct (fits_unsigned 4 magic && _) eqn:Hfits.
    + apply andb_true_iff in Hfits as [Hm Hs].
      by apply decompress_compact_block_complete.
    + by apply decompress_compact_block_overflow.
Qed.

(** X2.  [decompress_compact_block] raises [IndexError] exactly on the
    messages whose prefilled indices are not pairwise distinct and below the
    slot count [len(prefilled) + len(short_ids)]. *)
Theorem decompress_compact_block_index_error_iff (magic : Z)
    (msg : CompactBlockBtcMessage) (ts : TransactionService) :
  decompress magic msg ts = Raise IndexError ↔ ¬ well_formed_prefilled msg.
Proof.
  split.
  - intros Hr Hwf. rewrite decompress_compact_block_outcome in Hr by done.
    repeat case_match; done.
  - apply decompress_compact_block_malformed.
Qed.

(** X3.  Against a cache whose lookups return transactions,
    [decompress_compact_block] raises [struct.error] exactly when the
    prefilled indices are well formed, no slot is missing, and the magic or
    the payload length does not fit an unsigned 32-bit field of the
    envelope. *)
Theorem decompress_compact_block_struct_error_iff (magic : Z)
    (msg : CompactBlockBtcMessage) (ts : TransactionService) :
  decompress magic msg ts = Raise StructError
  ↔ well_formed_prefilled msg
    ∧ (None ∉ slots_of msg ts)
    ∧ fits_unsigned 4 magic
      && fits_unsigned 4
           (Z.of_nat (length (block_payload msg (filled (slots_of msg ts)))))
      = false.
Proof.
  destruct (decide (well_formed_prefilled msg)) as [Hwf|Hwf].
  - rewrite decompress_compact_block_outcome by done. split.
    + intros Hr. split; [done|]. case_decide; [done|]. split; [done|].
      by destruct (fits_unsigned 4 magic && _).
    + intros (_ & Hnone & Hfits). rewrite decide_False by done. by rewrite Hfits.
  - rewrite decompress_compact_block_malformed by done.
    split; [done|]. by intros [? _].
Qed.

(** X4.  In a partial result the slots follow the interleaved order of the
    block: the slot of an index with a prefilled entry holds that
    transaction; the slot of any other index holds what the cache gave for
    the short id at the cursor, which counts the indices before it that have
    no prefilled entry. *)
Theorem decompress_compact_block_slot_order (magic : Z) (msg : CompactBlockBtcMessage)
    (ts : TransactionService) (slots : list (option bytes)) (missing : list nat)
    (index : nat) :
  decompress magic msg ts = Return (partial_result slots missing) →
  index < length (prefilled_txns msg) + length (short_ids msg) →
  slots !! index
  = Some (match _get_prefilled_tx_by_index (prefilled_txns msg) index with
          | Some tx => Some tx
          | None =>
              short_ids msg !! count_short (prefilled_txns msg) (seq 0 index)
              ≫= (dict_of msg ts !!.)
          end).
Proof.
  intros Hr Hi. apply decompress_partial_inv in Hr as (_ & -> & _).
  unfold slot_list.
  rewrite (resolve_slots_lookup _ _ _ _ _ _ index)
    by (by apply lookup_seq_lt).
  do 2 f_equal. cbn. by rewrite take_seq, Nat.min_l by (unfold total_txs_count; lia).
Qed.

(** X5.  In a partial result no missing index has a prefilled entry, and
    there are at most as many missing indices as short ids. *)
Theorem decompress_compact_block_missing_are_short (magic : Z)
    (msg : CompactBlockBtcMessage) (ts : TransactionService)
    (slots : list (option bytes)) (missing : list nat) :
  decompress magic msg ts = Return (partial_result slots missing) →
  Forall (λ i, i ∉ prefilled_indices msg) missing
  ∧ length missing ≤ length (short_ids msg).
Proof.
  intros Hr. apply decompress_partial_inv in Hr as (Hwf & -> & ->).
  assert (Forall (λ i, i ∉ prefilled_indices msg) (none_positions (slots_of msg ts)))
    as Hshort.
  { apply Forall_forall. intros i Hi%none_positions_elem.
    apply lookup_lt_Some in Hi as Hlt. rewrite length_slot_list in Hlt.
    unfold slot_list in Hi.
    rewrite (resolve_slots_lookup _ _ _ _ _ _ i) in Hi by (by apply lookup_seq_lt).
    apply get_prefilled_None.
    by destruct (_get_prefilled_tx_by_index (prefilled_txns msg) i). }
  split; [done|].
  rewrite <- (count_short_well_formed msg Hwf), count_short_not_prefilled.
  apply submseteq_length, NoDup_submseteq; [apply none_positions_NoDup|].
  intros i Hi. apply list_elem_of_filter. split.
  - rewrite Forall_forall in Hshort. by apply Hshort.
  - apply none_positions_elem, lookup_lt_Some in Hi.
    rewrite length_slot_list in Hi. apply elem_of_seq. lia.
Qed.

End DecompressorOutcomes.

Lemma decompress_compact_block_slot_order_witness :
  Sample.decompress Sample.magic Sample.msg Sample.cache_without_tx2
  = Return (partial_result [Some Sample.CB; Some Sample.tx1; None] [2])
  ∧ [Some Sample.CB; Some Sample.tx1; None] !! 1 = Some (Some Sample.tx1).
Proof.
  assert (Sample.decompress Sample.magic Sample.msg Sample.cache_without_tx2
          = Return (partial_result [Some Sample.CB; Some Sample.tx1; None] [2])) as Hr
    by (by vm_compute).
  split; [exact Hr|].
  rewrite (decompress_compact_block_slot_order
             Sample.sha256 Sample.siphash24 Sample.hex_to_bytes Sample.bytes_to_hex
             _ _ _ _ _ 1 Hr) by (cbn; lia).
  by vm_compute.
Defined.

Lemma decompress_compact_block_missing_are_short_witness :
  Sample.decompress Sample.magic Sample.msg Sample.cache_without_tx2
  = Return (partial_result [Some Sample.CB; Some Sample.tx1; None] [2])
  ∧ length [2] ≤ length (short_ids Sample.msg).
Proof.
  assert (Sample.decompress Sample.magic Sample.msg Sample.cache_without_tx2
          = Return (partial_result [Some Sample.CB; Some Sample.tx1; None] [2])) as Hr
    by (by vm_compute).
  split; [exact Hr|].
  apply (decompress_compact_block_missing_are_short
           Sample.sha256 Sample.siphash24 Sample.hex_to_bytes Sample.bytes_to_hex
           _ _ _ _ _ Hr).
Defined.

(** ** The cache as the decompressor sees it *)

Lemma resolve_slots_empty (prefilled_txs : list (nat * bytes)) (short_ids : list string)
    (cursor : nat) (indices : list nat) :
  resolve_slots prefilled_txs short_ids ∅ cursor indices
  = _get_prefilled_tx_by_index prefilled_txs <$> indices.
Proof.
  revert cursor; induction indices as [|i r IH]; intros k; [done|].
  cbn [resolve_slots fmap list_fmap].
  destruct (_get_prefilled_tx_by_index prefilled_txs i); rewrite IH; [done|].
  f_equal. destruct (short_ids !! k); [cbn; apply lookup_empty|done].
Qed.

Lemma missing_in_fmap (f : nat → option bytes) (indices : list nat) :
  missing_in indices (f <$> indices) = filter (λ i, f i = None) indices.
Proof.
  induction indices as [|i r IH]; [done|]. cbn [fmap list_fmap missing_in].
  destruct (f i) eqn:Hf.
  - by rewrite filter_cons_False by congruence.
  - by rewrite filter_cons_True, IH by done.
Qed.

Lemma filter_ext_elem {A : Type} (P Q : A → Prop) `{∀ x, Decision (P x)}
    `{∀ x, Decision (Q x)} (l : list A) :
  (∀ x, x ∈ l → P x ↔ Q x) → filter P l = filter Q l.
Proof.
  induction l as [|x l IH]; intros HPQ; [done|].
  assert (filter P l = filter Q l) as Hl by (apply IH; intros y Hy; apply HPQ; by right).
  destruct (decide (P x)) as [HP|HP].
  - rewrite !filter_cons_True; [by rewrite Hl| |done]. apply HPQ; [left|done].
  - rewrite !filter_cons_False; [done| |done]. intros HQ. apply HP, HPQ; [left|done].
Qed.

Section DecompressorCache.

Variable sha256 : bytes → bytes.
Variable siphash24 : bytes → bytes → bytes.
Variable hex_to_bytes : string → bytes.
Variable bytes_to_hex : bytes → string.

Local Abbreviation decompress :=
  (decompress_compact_block sha256 siphash24 hex_to_bytes bytes_to_hex).
Local Abbreviation slots_of := (slot_list sha256 siphash24 hex_to_bytes bytes_to_hex).
Local Abbreviation dict_of :=
  (short_id_to_tx_hash_of sha256 siphash24 hex_to_bytes bytes_to_hex).
Local Abbreviation hex_id msg h :=
  (bytes_to_hex (_compute_short_id siphash24 (siphash_key sha256 msg)
                   (rev (hex_to_bytes h)))).

Lemma dict_of_lookup (msg : CompactBlockBtcMessage) (ts : TransactionService)
    (sid : string) :
  dict_of msg ts !! sid
  = if decide (sid ∈ short_ids msg)
    then get_transaction_by_hash ts
           <$> last (filter (λ h, hex_id msg h = sid) (get_all_transaction_hashes ts))
    else None.
Proof.
  unfold short_id_to_tx_hash_of. rewrite short_id_mapping_lookup. reflexivity.
Qed.

(** The decompressor reads the cache only through the dict it builds. *)
Lemma decompress_compact_block_dict (magic : Z) (msg : CompactBlockBtcMessage)
    (ts ts' : TransactionService) :
  dict_of msg ts = dict_of msg ts' →
  decompress magic msg ts = decompress magic msg ts'.
Proof.
  unfold short_id_to_tx_hash_of, decompress_compact_block. by intros ->.
Qed.

(** X6.  The dict from short id to transaction that the decompressor builds
    only has short ids of the block as keys, and each value is the
    transaction the cache returns for an enumerated hash with that short
    id. *)
Theorem short_id_dict_sound (msg : CompactBlockBtcMessage) (ts : TransactionService)
    (sid : string) (tx : bytes) :
  dict_of msg ts !! sid = Some tx →
  sid ∈ short_ids msg
  ∧ ∃ h, h ∈ get_all_transaction_hashes ts
         ∧ hex_id msg h = sid
         ∧ tx = get_transaction_by_hash ts h.
Proof.
  rewrite dict_of_lookup. case_decide as Hsid; [|done].
  destruct (last _) as [h|] eqn:Hlast; [|done]. intros [= <-]. split; [done|].
  exists h. apply last_Some_elem_of, list_elem_of_filter in Hlast as [Hh Hin]. done.
Qed.

(** X7.  A cached hash whose short id is not among the block's short ids
    has no effect: the decompression gives the same outcome with and
    without it. *)
Theorem decompress_compact_block_ignores_unreferenced (magic : Z)
    (msg : CompactBlockBtcMessage) (contents : string → bytes)
    (pre post : list string) (h : string) :
  hex_id msg h ∉ short_ids msg →
  decompress magic msg
    {| get_all_transaction_hashes := pre ++ h :: post;
       get_transaction_by_hash := contents |}
  = decompress magic msg
      {| get_all_transaction_hashes := pre ++ post;
         get_transaction_by_hash := contents |}.
Proof.
  intros Hh. apply decompress_compact_block_dict, map_eq. intros sid.
  rewrite !dict_of_lookup. case_decide as Hsid; [|done]. cbn.
  rewrite !filter_app, filter_cons_False; [done|].
  intros <-. by apply Hh.
Qed.

(** X8.  Against an empty cache, a well-formed message with at least one
    short id yields a partial result in which every index without a
    prefilled entry is missing, as many as there are short ids. *)
Theorem decompress_compact_block_empty_cache (magic : Z) (msg : CompactBlockBtcMessage)
    (ts : TransactionService) :
  get_all_transaction_hashes ts = [] →
  well_formed_prefilled msg →
  short_ids msg ≠ [] →
  ∃ slots missing,
    decompress magic msg ts = Return (partial_result slots missing)
    ∧ missing = filter (λ i, i ∉ prefilled_indices msg)
                  (seq 0 (length (prefilled_txns msg) + length (short_ids msg)))
    ∧ length missing = length (short_ids msg).
Proof.
  intros Hempty Hwf Hsids.
  assert (dict_of msg ts = ∅) as Hdict.
  { unfold short_id_to_tx_hash_of, short_id_mapping. by rewrite Hempty. }
  assert (none_positions (slots_of msg ts)
          = filter (λ i, i ∉ prefilled_indices msg) (seq 0 (total_txs_count msg)))
    as Hmissing.
  { rewrite <- missing_in_none_positions, length_slot_list.
    unfold slot_list. rewrite Hdict, resolve_slots_empty, missing_in_fmap.
    apply filter_ext_elem. intros i _. apply get_prefilled_None. }
  assert (length (none_positions (slots_of msg ts)) = length (short_ids msg)) as Hlen.
  { rewrite Hmissing. unfold prefilled_indices.
    by rewrite <- count_short_not_prefilled, count_short_well_formed. }
  exists (slots_of msg ts), (none_positions (slots_of msg ts)).
  split; [|by split].
  rewrite decompress_compact_block_well_formed by done.
  rewrite bool_decide_eq_true_2; [done|].
  rewrite Hlen. destruct (short_ids msg); [done|cbn; lia].
Qed.

(** X9.  A block without short ids never needs the cache: its
    decompression gives the same outcome against every cache, and it never
    returns a partial result. *)
Theorem decompress_compact_block_all_prefilled (magic : Z)
    (msg : CompactBlockBtcMessage) (ts : TransactionService) :
  short_ids msg = [] →
  (∀ ts', decompress magic msg ts = decompress magic msg ts')
  ∧ (∀ r, decompress magic msg ts = Return r → success r = true).
Proof.
  intros Hsids.
  assert (∀ ts0, dict_of msg ts0 = ∅) as Hdict.
  { intros ts0. apply map_eq. intros sid. rewrite dict_of_lookup, Hsids, lookup_empty.
    rewrite decide_False; [done|apply not_elem_of_nil]. }
  split.
  - intros ts'. apply decompress_compact_block_dict. by rewrite !Hdict.
  - intros r Hr. pose proof (decompress_returns_well_formed _ _ _ _ _ _ _ _ Hr) as Hwf.
    rewrite decompress_compact_block_well_formed in Hr by done.
    assert (length (none_positions (slots_of msg ts)) = 0) as Hlen.
    { rewrite <- missing_in_none_positions, length_slot_list.
      unfold slot_list. rewrite Hdict, resolve_slots_empty, missing_in_fmap.
      rewrite (filter_ext_elem _ (λ i, i ∉ (prefilled_txns msg).*1))
        by (intros i _; apply get_prefilled_None).
      rewrite <- count_short_not_prefilled, count_short_well_formed by done.
      by rewrite Hsids. }
    rewrite Hlen, bool_decide_eq_false_2 in Hr by lia.
    destruct (build_block_message _ _ _ _); [|by rewrite bind_Raise in Hr].
    rewrite bind_Return in Hr. by injection Hr as <-.
Qed.

(** X10.  A cache whose dict extends the dict of another one resolves at
    least the same slots: between two partial results the resolved slots
    agree and the missing indices can only shrink, and a message that is
    complete against the smaller dict gives the same outcome against the
    larger one. *)
Theorem decompress_compact_block_cache_monotone (magic : Z)
    (msg : CompactBlockBtcMessage) (ts ts' : TransactionService) :
  dict_of msg ts ⊆ dict_of msg ts' →
  (∀ slots missing slots' missing',
     decompress magic msg ts = Return (partial_result slots missing) →
     decompress magic msg ts' = Return (partial_result slots' missing') →
     (∀ i tx, slots !! i = Some (Some tx) → slots' !! i = Some (Some tx))
     ∧ missing' ⊆ missing)
  ∧ (∀ block_msg,
       decompress magic msg ts = Return (complete_result block_msg) →
       decompress magic msg ts' = Return (complete_result block_msg)).
Proof.
  intros Hsub.
  assert (∀ i tx, slots_of msg ts !! i = Some (Some tx) →
                  slots_of msg ts' !! i = Some (Some tx)) as Hmono.
  { intros i tx. unfold slot_list. by apply resolve_slots_mono. }
  split.
  - intros slots missing slots' missing' Hr Hr'.
    apply decompress_partial_inv in Hr as (_ & -> & ->).
    apply decompress_partial_inv in Hr' as (_ & -> & ->).
    split; [done|]. intros i Hi%none_positions_elem. apply none_positions_elem.
    apply lookup_lt_Some in Hi as Hlt. rewrite length_slot_list in Hlt.
    destruct (slots_of msg ts !! i) as [[tx|]|] eqn:Hs.
    + apply Hmono in Hs. congruence.
    + done.
    + apply lookup_ge_None in Hs. rewrite length_slot_list in Hs. lia.
  - intros b Hr.
    apply decompress_complete_inv in Hr as (Hwf & Hnone & Hm & Hs & Hbuf).
    assert (slots_of msg ts' = slots_of msg ts) as Heq.
    { apply list_eq. intros i. destruct (slots_of msg ts !! i) as [[tx|]|] eqn:Hi.
      - by apply Hmono.
      - exfalso. apply Hnone. by apply list_elem_of_lookup_2 in Hi.
      - apply lookup_ge_None. apply lookup_ge_None in Hi.
        by rewrite length_slot_list in *. }
    rewrite decompress_compact_block_complete; rewrite ?Heq; try done.
    destruct b as [b]. cbn in Hbuf. by rewrite Hbuf.
Qed.

End DecompressorCache.

Lemma short_id_dict_sound_witness :
  short_id_to_tx_hash_of Sample.sha256 Sample.siphash24 Sample.hex_to_bytes
    Sample.bytes_to_hex Sample.msg Sample.full_cache !! "aaa2xt" = Some Sample.tx2
  ∧ "aaa2xt" ∈ short_ids Sample.msg.
Proof.
  assert (short_id_to_tx_hash_of Sample.sha256 Sample.siphash24 Sample.hex_to_bytes
            Sample.bytes_to_hex Sample.msg Sample.full_cache !! "aaa2xt"
          = Some Sample.tx2) as Hd by (by vm_compute).
  split; [exact Hd|].
  apply (short_id_dict_sound _ _ _ _ _ _ _ _ Hd).
Defined.

Lemma decompress_compact_block_ignores_unreferenced_witness :
  Sample.decompress Sample.magic Sample.msg (Sample.cache ["tx1aaa"; "tx3aaa"; "tx2aaa"])
  = Sample.decompress Sample.magic Sample.msg Sample.full_cache.
Proof.
  apply (decompress_compact_block_ignores_unreferenced
           Sample.sha256 Sample.siphash24 Sample.hex_to_bytes Sample.bytes_to_hex
           Sample.magic Sample.msg Sample.contents ["tx1aaa"] ["tx2aaa"] "tx3aaa").
  by_evaluation.
Defined.

Lemma decompress_compact_block_empty_cache_witness :
  ∃ slots,
    Sample.decompress Sample.magic Sample.msg (Sample.cache [])
    = Return (partial_result slots [1; 2]).
Proof.
  destruct (decompress_compact_block_empty_cache
              Sample.sha256 Sample.siphash24 Sample.hex_to_bytes Sample.bytes_to_hex
              Sample.magic Sample.msg (Sample.cache []))
    as (slots & missing & Hr & -> & _); [reflexivity|by_evaluation|done|].
  by exists slots.
Defined.

Lemma decompress_compact_block_all_prefilled_witness :
  Sample.decompress Sample.magic (Sample.compact [] [(0, Sample.CB)]) (Sample.cache [])
  = Sample.decompress Sample.magic (Sample.compact [] [(0, Sample.CB)]) Sample.full_cache.
Proof.
  apply (decompress_compact_block_all_prefilled
           Sample.sha256 Sample.siphash24 Sample.hex_to_bytes Sample.bytes_to_hex).
  reflexivity.
Defined.

Lemma decompress_compact_block_cache_monotone_witness :
  ∃ block_msg,
    Sample.decompress Sample.magic Sample.msg Sample.full_cache
    = Return (complete_result block_msg)
    ∧ Sample.decompress Sample.magic Sample.msg
        (Sample.cache ["tx1aaa"; "tx2aaa"; "tx3aaa"])
      = Return (complete_result block_msg).
Proof.
  assert (∃ block_msg,
    Sample.decompress Sample.magic Sample.msg Sample.full_cache
    = Return (complete_result block_msg)) as [b Hb].
  { eexists. vm_compute. reflexivity. }
  exists b. split; [exact Hb|].
  destruct (decompress_compact_block_cache_monotone
              Sample.sha256 Sample.siphash24 Sample.hex_to_bytes Sample.bytes_to_hex
              Sample.magic Sample.msg Sample.full_cache
              (Sample.cache ["tx1aaa"; "tx2aaa"; "tx3aaa"])) as [_ Hcomplete];
    [by_evaluation|].
  by apply Hcomplete.
Defined.

(** * Further properties of the recovery resolver *)

Lemma write_pairs_app (pairs rest : list (nat * bytes)) (slots : list (option bytes)) :
  Forall (λ i, i < length slots) pairs.*1 →
  write_pairs slots (pairs ++ rest) = write_pairs (fill_slots slots pairs) rest.
Proof.
  revert slots; induction pairs as [|[j tx] r IH]; intros slots Hall; [done|].
  apply Forall_cons in Hall as [Hj Hall]. cbn in *.
  rewrite bool_decide_eq_true_2 by done.
  apply IH. by rewrite length_insert.
Qed.

Lemma last_occurrence (pairs : list (nat * bytes)) (j : nat) :
  j ∈ pairs.*1 →
  ∃ pre tx post, pairs = pre ++ (j, tx) :: post ∧ j ∉ post.*1.
Proof.
  induction pairs as [|[k t] r IH]; intros Hj; [by apply not_elem_of_nil in Hj|].
  destruct (decide (j ∈ r.*1)) as [Hr|Hr].
  - destruct (IH Hr) as (pre & tx & post & -> & Hpost).
    by exists ((k, t) :: pre), tx, post.
  - cbn in Hj. apply elem_of_cons in Hj as [->|Hj]; [|done].
    by exists [], t, r.
Qed.

Lemma fill_slots_idempotent (pairs : list (nat * bytes)) (slots : list (option bytes)) :
  Forall (λ i, i < length slots) pairs.*1 →
  fill_slots (fill_slots slots pairs) pairs = fill_slots slots pairs.
Proof.
  intros Hrange. apply list_eq. intros j.
  destruct (decide (j ∈ pairs.*1)) as [Hj|Hj].
  - rewrite Forall_forall in Hrange. specialize (Hrange j Hj).
    destruct (last_occurrence pairs j Hj) as (pre & tx & post & -> & Hpost).
    rewrite !fill_slots_lookup_last; rewrite ?length_fill_slots; done.
  - by rewrite !fill_slots_lookup_other.
Qed.

Lemma fill_none_positions (slots : list (option bytes)) (recovered : list bytes) :
  length (none_positions slots) = length recovered →
  None ∉ fill_slots slots (zip (none_positions slots) recovered).
Proof.
  intros Hlen [j Hj]%list_elem_of_lookup.
  destruct (decide (j ∈ none_positions slots)) as [Hin|Hout].
  - pose proof Hin as Hlt%none_positions_elem%lookup_lt_Some.
    destruct (last_occurrence (zip (none_positions slots) recovered) j)
      as (pre & tx & post & Hzip & Hpost); [by rewrite fst_zip by lia|].
    rewrite Hzip, fill_slots_lookup_last in Hj by done. done.
  - rewrite fill_slots_lookup_other in Hj by (by rewrite fst_zip by lia).
    apply Hout. by apply none_positions_elem.
Qed.

Section ResolverOutcomes.

Variable sha256 : bytes → bytes.

Local Abbreviation recover := (decompress_recovered_compact_block sha256).

(** The outcomes of the resolver when the writes stay in range. *)
Lemma decompress_recovered_in_range (magic : Z) (msg : CompactBlockBtcMessage)
    (slots : list (option bytes)) (missing_indices : list nat) (recovered : list bytes) :
  length missing_indices = length recovered →
  Forall (λ i, i < length slots) missing_indices →
  recover magic msg slots missing_indices recovered
  = (fill_slots slots (zip missing_indices recovered),
     if decide (None ∈ fill_slots slots (zip missing_indices recovered))
     then Raise TypeError
     else if fits_unsigned 4 magic
             && fits_unsigned 4
                  (Z.of_nat (length (block_payload msg
                     (filled (fill_slots slots (zip missing_indices recovered))))))
     then Return
            {| recovery_success := true;
               recovery_block_btc_message :=
                 Some {| buf :=
                   block_message_bytes sha256 magic msg
                     (filled (fill_slots slots (zip missing_indices recovered))) |} |}
     else Raise StructError).
Proof.
  intros Hlen Hrange.
  set (slots' := fill_slots slots (zip missing_indices recovered)).
  case_decide as Hnone.
  - unfold decompress_recovered_compact_block.
    rewrite bool_decide_eq_false_2 by (intros ?; done).
    rewrite write_recovered_pairs by done. rewrite !drop_0.
    rewrite write_pairs_in_range by (rewrite fst_zip by lia; done).
    fold slots'. rewrite bind_Return, pack_int_to_btc_varint_fresh, bind_Return.
    by rewrite transaction_rounds_none.
  - destruct (fits_unsigned 4 magic && _) eqn:Hfits.
    + apply andb_true_iff in Hfits as [Hm Hs].
      by apply decompress_recovered_success.
    + unfold decompress_recovered_compact_block.
      rewrite bool_decide_eq_false_2 by (intros ?; done).
      rewrite write_recovered_pairs by done. rewrite !drop_0.
      rewrite write_pairs_in_range by (rewrite fst_zip by lia; done).
      fold slots'. rewrite bind_Return, pack_int_to_btc_varint_fresh, bind_Return.
      rewrite transaction_rounds_filled, bind_Return by done. cbn [fst snd].
      rewrite build_block_message_overflow; [done|].
      rewrite <- Hfits. do 3 f_equal. unfold block_payload.
      rewrite !length_app, length_btc_varint, length_filled_all by done. lia.
Qed.

(** X12.  Running the resolver again on the list it has filled, with the
    same missing indices and recovered transactions, changes nothing: it
    returns the same result and leaves the list as it is. *)
Theorem decompress_recovered_compact_block_idempotent (magic : Z)
    (msg : CompactBlockBtcMessage) (slots slots' : list (option bytes))
    (missing_indices : list nat) (recovered : list bytes)
    (r : CompactBlockRecoveryResult) :
  recover magic msg slots missing_indices recovered = (slots', Return r) →
  recover magic msg slots' missing_indices recovered = (slots', Return r).
Proof.
  intros Hr.
  destruct (decide (length missing_indices = length recovered)) as [Hlen|Hne].
  2:{ rewrite decompress_recovered_mismatch in Hr by done.
      injection Hr as <- <-. by rewrite decompress_recovered_mismatch. }
  destruct (decompress_recovered_same_length sha256 magic msg slots _ _ Hlen)
    as [_ Hres].
  destruct (Hres r) as (_ & _ & Hw); [by rewrite Hr|].
  destruct (write_pairs_outcome (zip missing_indices recovered) slots)
    as [[_ Hrange]|[Hraise _]]; [|congruence].
  rewrite fst_zip in Hrange by lia.
  rewrite decompress_recovered_in_range in Hr by done.
  injection Hr as <- Hr.
  rewrite decompress_recovered_in_range
    by (by rewrite ?length_fill_slots).
  rewrite fill_slots_idempotent by (by rewrite fst_zip by lia).
  by rewrite Hr.
Qed.

(** X13.  With as many recovered transactions as missing indices, when a
    missing index is out of range of the list and the indices before it are
    in range, the resolver raises [IndexError] and the caller's list keeps
    the writes made for the indices before it. *)
Theorem decompress_recovered_compact_block_index_error (magic : Z)
    (msg : CompactBlockBtcMessage) (slots : list (option bytes))
    (pre post : list nat) (j : nat) (recovered : list bytes) :
  length (pre ++ j :: post) = length recovered →
  Forall (λ i, i < length slots) pre →
  length slots ≤ j →
  recover magic msg slots (pre ++ j :: post) recovered
  = (fill_slots slots (zip pre recovered), Raise IndexError).
Proof.
  intros Hlen Hpre Hj. unfold decompress_recovered_compact_block.
  rewrite bool_decide_eq_false_2 by (intros ?; done).
  rewrite write_recovered_pairs by done. rewrite !drop_0.
  rewrite <- (take_drop (length pre) recovered) at 1.
  rewrite length_app in Hlen. cbn in Hlen.
  rewrite zip_with_app by (rewrite length_take; lia).
  assert (zip pre (take (length pre) recovered) = zip pre recovered) as ->.
  { by rewrite zip_with_take_r. }
  rewrite write_pairs_app by (rewrite fst_zip by lia; done).
  destruct (drop (length pre) recovered) as [|tx rest] eqn:Hdrop.
  { apply (f_equal length) in Hdrop. rewrite length_drop in Hdrop. cbn in Hdrop. lia. }
  cbn [zip zip_with write_pairs].
  rewrite bool_decide_eq_false_2 by (rewrite length_fill_slots; lia).
  done.
Qed.

(** X14.  When the missing indices are in range but a [None] slot is left
    after the writes, the resolver raises [TypeError] (from [len(None)]),
    after it has written the recovered transactions into the list. *)
Theorem decompress_recovered_compact_block_type_error (magic : Z)
    (msg : CompactBlockBtcMessage) (slots : list (option bytes))
    (missing_indices : list nat) (recovered : list bytes) :
  length missing_indices = length recovered →
  Forall (λ i, i < length slots) missing_indices →
  None ∈ fill_slots slots (zip missing_indices recovered) →
  recover magic msg slots missing_indices recovered
  = (fill_slots slots (zip missing_indices recovered), Raise TypeError).
Proof.
  intros Hlen Hrange Hnone.
  rewrite decompress_recovered_in_range by done. by rewrite decide_True.
Qed.

End ResolverOutcomes.

Section PartialThenRecover.

Variable sha256 : bytes → bytes.
Variable siphash24 : bytes → bytes → bytes.
Variable hex_to_bytes : string → bytes.
Variable bytes_to_hex : bytes → string.

(** X11.  The partial result of a decompression can always be completed:
    given as many transactions as there are missing indices, the resolver
    raises neither [IndexError] nor [TypeError]; it fills every slot and, when
    the magic and the payload length fit the envelope, returns a block
    message with one transaction per slot. *)
Theorem partial_result_completes (magic : Z) (msg : CompactBlockBtcMessage)
    (ts : TransactionService) (slots : list (option bytes)) (missing : list nat)
    (recovered : list bytes) :
  decompress_compact_block sha256 siphash24 hex_to_bytes bytes_to_hex magic msg ts
  = Return (partial_result slots missing) →
  length recovered = length missing →
  let slots' := fill_slots slots (zip missing recovered) in
  (None ∉ slots')
  ∧ length (filled slots') = length (prefilled_txns msg) + length (short_ids msg)
  ∧ decompress_recovered_compact_block sha256 magic msg slots missing recovered
    = (slots',
       if fits_unsigned 4 magic
          && fits_unsigned 4 (Z.of_nat (length (block_payload msg (filled slots'))))
       then Return
              {| recovery_success := true;
                 recovery_block_btc_message :=
                   Some {| buf := block_message_bytes sha256 magic msg (filled slots') |} |}
       else Raise StructError).
Proof.
  intros Hr Hlen slots'. apply decompress_partial_inv in Hr as (_ & -> & ->).
  assert (None ∉ slots') as Hnone by (by apply fill_none_positions).
  split; [done|split].
  - unfold slots'. by rewrite length_filled_all, length_fill_slots, length_slot_list.
  - rewrite decompress_recovered_in_range by (done || apply none_positions_lt).
    fold slots'. by rewrite decide_False.
Qed.

End PartialThenRecover.

Lemma decompress_recovered_compact_block_idempotent_witness :
  ∃ slots' r,
    Sample.recover Sample.magic Sample.msg
      [Some Sample.CB; Some Sample.tx1; None] [2] [Sample.tx2] = (slots', Return r)
    ∧ Sample.recover Sample.magic Sample.msg slots' [2] [Sample.tx2]
      = (slots', Return r).
Proof.
  assert (∃ slots' r,
    Sample.recover Sample.magic Sample.msg
      [Some Sample.CB; Some Sample.tx1; None] [2] [Sample.tx2] = (slots', Return r))
    as (slots' & r & Hr).
  { eexists _, _. vm_compute. reflexivity. }
  exists slots', r. split; [exact Hr|].
  by apply (decompress_recovered_compact_block_idempotent Sample.sha256) in Hr.
Defined.

Lemma decompress_recovered_compact_block_index_error_witness :
  Sample.recover Sample.magic Sample.msg [None; None] [0; 5] [Sample.tx1; Sample.tx2]
  = ([Some Sample.tx1; None], Raise IndexError).
Proof.
  apply (decompress_recovered_compact_block_index_error Sample.sha256
           Sample.magic Sample.msg [None; None] [0] [] 5 [Sample.tx1; Sample.tx2]).
  - reflexivity.
  - by_evaluation.
  - cbn. lia.
Defined.

Lemma decompress_recovered_compact_block_type_error_witness :
  Sample.recover Sample.magic Sample.msg [None; None] [0] [Sample.tx1]
  = ([Some Sample.tx1; None], Raise TypeError).
Proof.
  apply (decompress_recovered_compact_block_type_error Sample.sha256
           Sample.magic Sample.msg [None; None] [0] [Sample.tx1]).
  - reflexivity.
  - by_evaluation.
  - by_evaluation.
Defined.

Lemma partial_result_completes_witness :
  Sample.decompress Sample.magic Sample.msg Sample.cache_without_tx2
  = Return (partial_result [Some Sample.CB; Some Sample.tx1; None] [2])
  ∧ None ∉ fill_slots [Some Sample.CB; Some Sample.tx1; None] (zip [2] [Sample.tx3]).
Proof.
  assert (Sample.decompress Sample.magic Sample.msg Sample.cache_without_tx2
          = Return (partial_result [Some Sample.CB; Some Sample.tx1; None] [2])) as Hr
    by (by vm_compute).
  split; [exact Hr|].
  destruct (partial_result_completes
              Sample.sha256 Sample.siphash24 Sample.hex_to_bytes Sample.bytes_to_hex
              Sample.magic Sample.msg Sample.cache_without_tx2 _ _ [Sample.tx3] Hr)
    as [Hnone _]; [reflexivity|].
  exact Hnone.
Defined.

(** * The envelope header of an emitted block *)

Section EnvelopeHeader.

Variable sha256 : bytes → bytes.
Variable siphash24 : bytes → bytes → bytes.
Variable hex_to_bytes : string → bytes.
Variable bytes_to_hex : bytes → string.
Hypothesis sha256_length : ∀ data, length (sha256 data) = 32.

Lemma block_message_bytes_header (magic : Z) (msg : CompactBlockBtcMessage)
    (txs : list bytes) (m : BlockBtcMessage) :
  fits_unsigned 4 magic = true →
  buf m = block_message_bytes sha256 magic msg txs →
  envelope_magic m = magic
  ∧ envelope_command m = BLOCK ++ replicate 7 x00
  ∧ length (buf m) = 24 + length (block_payload msg txs).
Proof.
  intros Hm Hbuf. unfold envelope_magic, envelope_command. rewrite Hbuf.
  unfold block_message_bytes, envelope_prefix, slice.
  rewrite <- !(assoc_L (++)). split; [|split].
  - rewrite drop_0, take_app_length' by (by rewrite length_le_bytes).
    by apply le_value_le_bytes_fits.
  - rewrite drop_app_length' by (by rewrite length_le_bytes).
    by rewrite take_app_length' by (by rewrite length_pack_string).
  - rewrite !length_app, !length_le_bytes, length_pack_string, length_take, length_drop.
    unfold bitcoin_hash. rewrite sha256_length. lia.
Qed.

(** X15.  In every block message emitted by the decompressor or by the
    recovery resolver, the envelope's first field decodes to the magic
    passed in, its command field is [block] padded with zero bytes to 12
    bytes, and the message is 24 bytes longer than its payload. *)
Theorem emitted_block_envelope_header (magic : Z) (msg : CompactBlockBtcMessage) :
  (∀ ts r block_msg,
     decompress_compact_block sha256 siphash24 hex_to_bytes bytes_to_hex magic msg ts
     = Return r →
     block_btc_message r = Some block_msg →
     envelope_magic block_msg = magic
     ∧ envelope_command block_msg = BLOCK ++ replicate 7 x00
     ∧ length (buf block_msg) = 24 + length (payload block_msg))
  ∧ (∀ slots missing_indices recovered r block_msg,
       (decompress_recovered_compact_block sha256 magic msg slots missing_indices
          recovered).2 = Return r →
       recovery_block_btc_message r = Some block_msg →
       envelope_magic block_msg = magic
       ∧ envelope_command block_msg = BLOCK ++ replicate 7 x00
       ∧ length (buf block_msg) = 24 + length (payload block_msg)).
Proof.
  split.
  - intros ts r b Hr Hb.
    destruct (decompress_result_cases _ _ _ _ _ _ _ _ Hr) as [[b' ->]|(? & ? & ->)];
      [|done].
    cbn in Hb. injection Hb as ->.
    apply decompress_complete_inv in Hr as (_ & _ & Hm & Hs & Hbuf).
    destruct (block_message_bytes_envelope _ sha256_length _ _ _ _ Hs Hbuf) as (Hp & _).
    rewrite Hp. by apply block_message_bytes_header.
  - intros slots missing_indices recovered r b Hr Hb.
    destruct (decide (length missing_indices = length recovered)) as [Hlen|Hne].
    2:{ rewrite decompress_recovered_mismatch in Hr by done.
        cbn in Hr. injection Hr as <-. done. }
    destruct (decompress_recovered_same_length sha256 magic msg slots _ _ Hlen)
      as [_ Hres].
    destruct (Hres r Hr) as (_ & _ & Hw).
    destruct (write_pairs_outcome (zip missing_indices recovered) slots)
      as [[_ Hrange]|[Hraise _]]; [|congruence].
    rewrite fst_zip in Hrange by lia.
    rewrite decompress_recovered_in_range in Hr by done. cbn [snd] in Hr.
    case_decide; [done|].
    destruct (fits_unsigned 4 magic && _) eqn:Hfits; [|done].
    apply andb_true_iff in Hfits as [Hm Hs].
    injection Hr as <-. cbn [recovery_block_btc_message] in Hb. injection Hb as <-.
    destruct (block_message_bytes_envelope _ sha256_length magic msg _
                {| buf := block_message_bytes sha256 magic msg
                            (filled (fill_slots slots (zip missing_indices recovered))) |}
                Hs eq_refl) as (Hp & _).
    rewrite Hp. by apply block_message_bytes_header.
Qed.

End EnvelopeHeader.

Lemma emitted_block_envelope_header_witness :
  (∀ data, length (Sample.sha256 data) = 32)
  ∧ ∃ block_msg,
      Sample.decompress Sample.magic Sample.msg Sample.full_cache
      = Return (complete_result block_msg)
      ∧ envelope_magic block_msg = Sample.magic.
Proof.
  assert (∀ data, length (Sample.sha256 data) = 32) as Hlen.
  { intros data. unfold Sample.sha256.
    rewrite length_take, length_app, length_replicate. lia. }
  split; [exact Hlen|].
  assert (∃ block_msg,
    Sample.decompress Sample.magic Sample.msg Sample.full_cache
    = Return (complete_result block_msg)) as [b Hb].
  { eexists. vm_compute. reflexivity. }
  exists b. split; [exact Hb|].
  destruct (emitted_block_envelope_header Sample.sha256 Sample.siphash24
              Sample.hex_to_bytes Sample.bytes_to_hex Hlen Sample.magic Sample.msg)
    as [Hdec _].
  by destruct (Hdec Sample.full_cache _ b Hb eq_refl) as (Hmagic & _).
Defined.

(** * Transaction dispatch *)

Section TxDispatchFacts.

Context {tx_message bx_tx_message tx_hash : Type} `{Countable tx_hash}.
Variable tx_to_bx_txs : tx_message → list (bx_tx_message * tx_hash * bytes).

Lemma msg_tx_rounds_broadcast (converted : list (bx_tx_message * tx_hash * bytes))
    (node : TxNode) :
  broadcast_messages (foldl msg_tx_round node converted)
  = broadcast_messages node ++ converted.*1.*1.
Proof.
  revert node; induction converted as [|[[m k] b] r IH]; intros node.
  - by rewrite app_nil_r.
  - cbn [foldl]. rewrite IH. cbn. by rewrite <- (assoc_L (++)).
Qed.

Lemma msg_tx_rounds_contents (converted : list (bx_tx_message * tx_hash * bytes))
    (node : TxNode) (k : tx_hash) :
  hash_to_contents (foldl msg_tx_round node converted) !! k
  = match last (filter (λ c, c.1.2 = k) converted) with
    | Some c => Some c.2
    | None => hash_to_contents node !! k
    end.
Proof.
  revert node; induction converted as [|[[m k'] b] r IH] using rev_ind; intros node.
  - done.
  - rewrite foldl_app, filter_app. cbn [foldl msg_tx_round hash_to_contents].
    destruct (decide (k' = k)) as [->|Hne].
    + rewrite (filter_cons_True _ _ []) by done. rewrite filter_nil, last_snoc.
      by rewrite lookup_insert_eq.
    + rewrite (filter_cons_False _ _ []) by done. rewrite filter_nil, app_nil_r.
      by rewrite lookup_insert_ne.
Qed.

(** X16.  [msg_tx] hands every converted transaction message to
    [node.broadcast] exactly once, in the converter's order, after the
    messages broadcast before; a message that converts to nothing
    broadcasts nothing. *)
Theorem msg_tx_broadcasts_each_once (msg : tx_message) (node : TxNode) :
  broadcast_messages (msg_tx tx_to_bx_txs msg node)
  = broadcast_messages node ++ (tx_to_bx_txs msg).*1.*1.
Proof. apply msg_tx_rounds_broadcast. Qed.

(** X17.  After [msg_tx], [hash_to_contents] maps each converted hash to
    the bytes of the last converted transaction with that hash (a later
    insert overwrites an earlier one), and every other hash to what it
    mapped to before. *)
Theorem msg_tx_caches_contents (msg : tx_message) (node : TxNode) (k : tx_hash) :
  hash_to_contents (msg_tx tx_to_bx_txs msg node) !! k
  = match last (filter (λ c, c.1.2 = k) (tx_to_bx_txs msg)) with
    | Some c => Some c.2
    | None => hash_to_contents node !! k
    end.
Proof. apply msg_tx_rounds_contents. Qed.

End TxDispatchFacts.

(** * Accounting of the block dispatch *)

Lemma count_calls_app {A : Type} (test : A → bool) (l k : list A) :
  count_calls test (l ++ k) = count_calls test l + count_calls test k.
Proof. unfold count_calls. by rewrite List.filter_app, length_app. Qed.

(** X18.  Over any sequence of inbound full blocks, [msg_block] records one
    RECEIVED event per block, and every block is either ignored as seen or
    converted, recorded as compressed, propagated and its recovery
    cancelled, never both: the calls of the four steps are equally many and
    together with the IGNORE_SEEN events as many as the blocks. *)
Theorem msg_blocks_accounting (msgs : list FullBlockMessage) (node : Node) :
  ∃ new,
    calls (msg_blocks msgs node) = calls node ++ new
    ∧ count_calls is_received new = length msgs
    ∧ count_calls is_ignore_seen new + count_calls is_propagation new = length msgs
    ∧ count_calls is_conversion new = count_calls is_propagation new
    ∧ count_calls is_compressed new = count_calls is_propagation new
    ∧ count_calls is_cancellation new = count_calls is_propagation new.
Proof.
  revert node; induction msgs as [|msg msgs IH]; intros node.
  - exists []. by rewrite app_nil_r.
  - change (msg_blocks (msg :: msgs) node) with (msg_blocks msgs (msg_block msg node)).
    destruct (IH (msg_block msg node)) as (new & -> & Hr & Hi & Hc & Hz & Hx).
    destruct (decide (block_hash msg ∈ contents (blocks_seen node))) as [Hseen|Hunseen].
    + rewrite msg_block_seen by done. cbn [calls].
      eexists. split; [by rewrite <- (assoc_L (++))|].
      rewrite !count_calls_app. cbn. lia.
    + rewrite msg_block_unseen by done. cbn [calls].
      eexists. split; [by rewrite <- (assoc_L (++))|].
      rewrite !count_calls_app. cbn. lia.
Qed.

(** * The gateway node's message queue *)

(** X19.  [send_bytes_to_node] never drops or reorders a message: without
    a connection to the blockchain node the messages are appended, in
    order, to [node_msg_queue] and no connection appears; with a connection
    they are enqueued on it, in order, and [node_msg_queue] is untouched. *)
Theorem send_bytes_to_node_in_order (msgs : list bytes) (node : GatewayNode) :
  (node_conn node = None →
   foldl (λ node msg, send_bytes_to_node msg node) node msgs
   = {| node_conn := None; node_msg_queue := node_msg_queue node ++ msgs |})
  ∧ (∀ enqueued,
       node_conn node = Some enqueued →
       foldl (λ node msg, send_bytes_to_node msg node) node msgs
       = {| node_conn := Some (enqueued ++ msgs);
            node_msg_queue := node_msg_queue node |}).
Proof.
  revert node; induction msgs as [|msg msgs IH]; intros [conn queue]; cbn.
  - split; [intros ->|intros e ->]; by rewrite app_nil_r.
  - split.
    + intros ->. destruct (IH {| node_conn := None; node_msg_queue := queue ++ [msg] |})
        as [Hq _]. cbn in *. rewrite Hq by done. by rewrite <- (assoc_L (++)).
    + intros e ->.
      destruct (IH {| node_conn := Some (e ++ [msg]); node_msg_queue := queue |})
        as [_ Hc]. cbn in *. rewrite (Hc _ eq_refl). by rewrite <- (assoc_L (++)).
Qed.

Lemma send_bytes_to_node_in_order_witness :
  foldl (λ node msg, send_bytes_to_node msg node)
    {| node_conn := None; node_msg_queue := [[x01]] |} [[x02]; [x03]]
  = {| node_conn := None; node_msg_queue := [[x01]; [x02]; [x03]] |}.
Proof.
  destruct (send_bytes_to_node_in_order [[x02]; [x03]]
              {| node_conn := None; node_msg_queue := [[x01]] |}) as [Hqueue _].
  by apply Hqueue.
Defined.

(** * The performance counters *)

(** X20.  After any sequence of calls of the four logging methods, each
    counter of the interval has grown by the number of calls of its own
    method and by nothing else; on a fresh interval the four counters add up
    to the number of calls. *)
Theorem log_calls_count (cs : list stats_call) (d : GatewayBdnPerformanceStatInterval) :
  new_blocks_received_from_blockchain_node (foldl log_call d cs)
  = new_blocks_received_from_blockchain_node d
    + length (filter (λ c, c = LogBlockFromBlockchainNode) cs)
  ∧ new_blocks_received_from_bdn (foldl log_call d cs)
    = new_blocks_received_from_bdn d + length (filter (λ c, c = LogBlockFromBdn) cs)
  ∧ new_tx_received_from_blockchain_node (foldl log_call d cs)
    = new_tx_received_from_blockchain_node d
      + length (filter (λ c, c = LogTxFromBlockchainNode) cs)
  ∧ new_tx_received_from_bdn (foldl log_call d cs)
    = new_tx_received_from_bdn d + length (filter (λ c, c = LogTxFromBdn) cs)
  ∧ new_blocks_received_from_blockchain_node (foldl log_call new_interval_data cs)
    + new_blocks_received_from_bdn (foldl log_call new_interval_data cs)
    + new_tx_received_from_blockchain_node (foldl log_call new_interval_data cs)
    + new_tx_received_from_bdn (foldl log_call new_interval_data cs)
    = length cs.
Proof.
  assert (∀ d,
    new_blocks_received_from_blockchain_node (foldl log_call d cs)
    = new_blocks_received_from_blockchain_node d
      + length (filter (λ c, c = LogBlockFromBlockchainNode) cs)
    ∧ new_blocks_received_from_bdn (foldl log_call d cs)
      = new_blocks_received_from_bdn d + length (filter (λ c, c = LogBlockFromBdn) cs)
    ∧ new_tx_received_from_blockchain_node (foldl log_call d cs)
      = new_tx_received_from_blockchain_node d
        + length (filter (λ c, c = LogTxFromBlockchainNode) cs)
    ∧ new_tx_received_from_bdn (foldl log_call d cs)
      = new_tx_received_from_bdn d + length (filter (λ c, c = LogTxFromBdn) cs)
    ∧ length (filter (λ c, c = LogBlockFromBlockchainNode) cs)
      + length (filter (λ c, c = LogBlockFromBdn) cs)
      + length (filter (λ c, c = LogTxFromBlockchainNode) cs)
      + length (filter (λ c, c = LogTxFromBdn) cs)
      = length cs) as Hall.
  { induction cs as [|c cs IH]; intros d0; [cbn; lia|].
    cbn [foldl]. destruct (IH (log_call d0 c)) as (-> & -> & -> & -> & Hsum).
    rewrite !filter_cons.
    destruct c; repeat case_decide; try done; cbn; lia. }
  destruct (Hall d) as (? & ? & ? & ? & _).
  destruct (Hall new_interval_data) as (-> & -> & -> & -> & Hsum).
  repeat split; try done.
Qed.

Example test_bdn_performance_counters :
  foldl log_call new_interval_data
    [LogBlockFromBdn; LogBlockFromBdn; LogBlockFromBlockchainNode;
     LogTxFromBdn; LogTxFromBlockchainNode; LogTxFromBlockchainNode]
  = {| new_blocks_received_from_blockchain_node := 1;
       new_blocks_received_from_bdn := 2;
       new_tx_received_from_blockchain_node := 2;
       new_tx_received_from_bdn := 1 |}.
Proof. reflexivity. Qed.

Example msg_tx_duplicate_hash :
  let node := msg_tx (λ _ : unit, [(10, 7, Sample.tx1); (11, 8, Sample.CB); (12, 7, Sample.tx2)])
                () {| hash_to_contents := ∅; broadcast_messages := [] |} in
  broadcast_messages node = [10; 11; 12]
  ∧ hash_to_contents node !! 7 = Some Sample.tx2
  ∧ hash_to_contents node !! 8 = Some Sample.CB
  ∧ hash_to_contents node !! 9 = None.
Proof. by vm_compute. Qed.

(** * The magic and the partial result *)

(** X21.  The magic is only used, and only checked, when the block is
    assembled: a partial result does not depend on it, so a decompression
    that yields a partial result yields the same one for any other magic,
    also one that no envelope could hold. *)
Theorem partial_result_ignores_magic (sha256 : bytes → bytes)
    (siphash24 : bytes → bytes → bytes) (hex_to_bytes : string → bytes)
    (bytes_to_hex : bytes → string) (magic magic' : Z) (msg : CompactBlockBtcMessage)
    (ts : TransactionService) (slots : list (option bytes)) (missing : list nat) :
  decompress_compact_block sha256 siphash24 hex_to_bytes bytes_to_hex magic msg ts
  = Return (partial_result slots missing) →
  decompress_compact_block sha256 siphash24 hex_to_bytes bytes_to_hex magic' msg ts
  = Return (partial_result slots missing).
Proof.
  intros Hr. pose proof (decompress_returns_well_formed _ _ _ _ _ _ _ _ Hr) as Hwf.
  rewrite decompress_compact_block_outcome in Hr |- * by done.
  case_decide; [done|]. by destruct (fits_unsigned 4 magic && _).
Qed.

Lemma partial_result_ignores_magic_witness :
  Sample.decompress (-1) Sample.msg Sample.cache_without_tx2
  = Return (partial_result [Some Sample.CB; Some Sample.tx1; None] [2]).
Proof.
  apply (partial_result_ignores_magic Sample.sha256 Sample.siphash24
           Sample.hex_to_bytes Sample.bytes_to_hex Sample.magic).
  by vm_compute.
Defined.
